(** * Push Force Scan (agora-pfs): a shallow embedding and its properties

    The development follows the TypeScript source of [pfs], [scanX], [scanY],
    [same] and [delta].  The array [graph.nodes] and the node objects it
    holds are the mutable state; the code runs in a state-and-exception
    monad over that array, and the state survives a throw.  The [while]
    loops take fuel, and the fuel is shown to suffice.

    Coordinates are JavaScript numbers; they are taken here as integers,
    on which the additions of the code are exact.  The properties stated
    of [pfs] use no more of the arithmetic than that adding 0 changes
    nothing and that adding a number that is not negative does not
    decrease and keeps the order.

    The geometry primitives [overlap], [optimalVector], [vector] and
    [diff] belong to the library agora-graph and are parameters of the
    development; what the properties of [pfs] need of them is stated as
    a contract, and a geometry of boxes is given that meets it. *)

From Stdlib Require Import ZArith Lia String.
From stdpp Require Import base list sorting.

Local Open Scope Z_scope.

(** ** Data *)

(** A vector or position [{x, y}]. *)
Record Point : Type := mkPoint { px : Z; py : Z }.

(** A node of the graph.  [index] is the identity of the node object,
    [x], [y] its current position, [width] and [height] its extent and
    [up] the staged position, [None] when the field is undefined.  The
    array holds pairwise distinct objects and [pfs] gives each of them a
    staged position of its own, so the array is a list of records. *)
Record Node : Type := mkNode {
  index : nat;
  x : Z;
  y : Z;
  width : Z;
  height : Z;
  up : option Point
}.

(** [n.up = u] and [delete n.up]. *)
Definition set_up (n : Node) (u : option Point) : Node :=
  mkNode (index n) (x n) (y n) (width n) (height n) u.

(** The two axes: [scanX] and [scanY] differ only by the coordinate. *)
Inductive axis : Type := AxisX | AxisY.

Definition coord (ax : axis) (p : Point) : Z :=
  match ax with AxisX => px p | AxisY => py p end.

(** The current coordinate [n.x] or [n.y]. *)
Definition pos (ax : axis) (n : Node) : Z :=
  match ax with AxisX => x n | AxisY => y n end.

(** [u.x = u.x + d] or [u.y = u.y + d]. *)
Definition add_coord (ax : axis) (u : Point) (d : Z) : Point :=
  match ax with
  | AxisX => mkPoint (px u + d) (py u)
  | AxisY => mkPoint (px u) (py u + d)
  end.

(** ** The state-and-exception monad *)

(** How a run ends: normally, by a [throw], or with the fuel of a [while]
    loop used up. *)
Inductive outcome (A : Type) : Type :=
  | Ok (a : A)
  | Throw (msg : string)
  | OutOfFuel.
Arguments Ok {A} a.
Arguments Throw {A} msg.
Arguments OutOfFuel {A}.

(** A computation reads and writes the array; the state survives a throw,
    as the JavaScript heap does. *)
Definition M (A : Type) : Type := list Node -> outcome A * list Node.

Definition ret {A} (a : A) : M A := fun s => (Ok a, s).

Definition bind {A B} (m : M A) (f : A -> M B) : M B :=
  fun s =>
    match m s with
    | (Ok a, s') => f a s'
    | (Throw msg, s') => (Throw msg, s')
    | (OutOfFuel, s') => (OutOfFuel, s')
    end.

Notation "'let*' v := m 'in' k" := (bind m (fun v => k))
  (at level 10, v name, m at level 100, k at level 200, only parsing).
Notation "m ;;; k" := (bind m (fun _ => k))
  (at level 100, k at level 200, right associativity, only parsing).

Definition throw {A} (msg : string) : M A := fun s => (Throw msg, s).
Definition out_of_fuel {A} : M A := fun s => (OutOfFuel, s).

(** [nodes.length] *)
Definition nodes_length : M nat := fun s => (Ok (length s), s).

(** [nodes[j]]; reading a field of [undefined] is a TypeError. *)
Definition type_error : string := "TypeError".
Definition read (j : nat) : M Node :=
  fun s => match s !! j with
           | Some n => (Ok n, s)
           | None => (Throw type_error, s)
           end.

(** A write to the object held at [nodes[j]]. *)
Definition write (j : nat) (n : Node) : M unit :=
  fun s => (Ok tt, <[j := n]> s).

(** [for (let j = lo; j < hi; j++) body(j)].  The bound of every such
    loop of the source is [nodes.length], which no loop body changes; it
    is read once, before the loop. *)
Fixpoint for_loop (n : nat) (j : nat) (body : nat -> M unit) : M unit :=
  match n with
  | O => ret tt
  | S n' => body j ;;; for_loop n' (S j) body
  end.
Definition for_ (lo hi : nat) (body : nat -> M unit) : M unit :=
  for_loop (hi - lo) lo body.

(** The same loop around a local variable that the body updates. *)
Fixpoint for_acc_loop {A} (n : nat) (j : nat) (body : nat -> A -> M A)
    (acc : A) : M A :=
  match n with
  | O => ret acc
  | S n' => let* acc' := body j acc in for_acc_loop n' (S j) body acc'
  end.
Definition for_acc {A} (lo hi : nat) (body : nat -> A -> M A) (acc : A) : M A :=
  for_acc_loop (hi - lo) lo body acc.

(** [_.forEach(graph.nodes, f)] *)
Definition forEach (f : nat -> Node -> M unit) : M unit :=
  let* len := nodes_length in
  for_ 0 len (fun j => let* n := read j in f j n).

(** ** Sorting *)

(** [Array.prototype.sort] with a comparator is a stable sort: [n] goes
    before the first element it does not compare greater than. *)
Fixpoint insert_sorted (cmp : Node -> Node -> Z) (n : Node) (l : list Node)
    : list Node :=
  match l with
  | [] => [n]
  | m :: r => if cmp n m <=? 0 then n :: m :: r else m :: insert_sorted cmp n r
  end.

Fixpoint sort_list (cmp : Node -> Node -> Z) (l : list Node) : list Node :=
  match l with
  | [] => []
  | n :: r => insert_sorted cmp n (sort_list cmp r)
  end.

(** [graph.nodes.sort(cmp)] *)
Definition sort (cmp : Node -> Node -> Z) : M unit :=
  fun s => (Ok tt, sort_list cmp s).

(** ** A geometry of boxes *)

(** Modelled from the spec: the geometry primitives [overlap], [vector],
    [optimalVector] and [diff] of agora-graph, which the sources of this
    repository import and do not define.  A node is a box of extent
    [width] by [height] centred at its position, and the optimal vector
    separates two boxes along their axis of least overlap.  The
    development below is parametric in the primitives; this geometry
    provides an instance of them to run the algorithm on. *)
Module Box.

(** The least distance between the centres at which two boxes are clear
    of each other by [padding], along x and along y. *)
Definition reach_x (a b : Node) (padding : Z) : Z :=
  (width a + width b + 1) / 2 + padding.
Definition reach_y (a b : Node) (padding : Z) : Z :=
  (height a + height b + 1) / 2 + padding.

(** The boxes, inflated by the padding, intersect. *)
Definition overlap (a b : Node) (padding : Z) : bool :=
  (Z.abs (x b - x a) <? reach_x a b padding) &&
  (Z.abs (y b - y a) <? reach_y a b padding).

(** The vector from the centre of [a] to the centre of [b]. *)
Definition vector (a b : Node) : Point :=
  mkPoint (x b - x a) (y b - y a).

(** Vector subtraction. *)
Definition diff (u v : Point) : Point :=
  mkPoint (px u - px v) (py u - py v).

(** The axis of least overlap is x: the boxes reach less far into each
    other along x than along y (along x also when the two amounts are
    equal). *)
Definition along_x (a b : Node) (padding : Z) : bool :=
  reach_x a b padding - Z.abs (x b - x a)
  <=? reach_y a b padding - Z.abs (y b - y a).

(** The vector between the centres that separates the boxes by exactly
    the padding along the axis of least overlap. *)
Definition optimalVector (a b : Node) (padding : Z) : Point :=
  if along_x a b padding
  then mkPoint (Z.sgn (x b - x a) * reach_x a b padding) (y b - y a)
  else mkPoint (x b - x a) (Z.sgn (y b - y a) * reach_y a b padding).

(** A box of extent 10 by 10, without and with a staged position. *)
Definition box (i : nat) (bx by_ : Z) : Node := mkNode i bx by_ 10 10 None.
Definition staged_box (i : nat) (bx by_ : Z) : Node :=
  mkNode i bx by_ 10 10 (Some (mkPoint bx by_)).

(** Two boxes at the same position. *)
Definition twins : list Node := [box 0 0 0; box 1 0 0].

(** Two overlapping boxes side by side. *)
Definition pair : list Node := [box 0 0 0; box 1 4 0].

(** Three boxes that share their x and a fourth to their right that
    overlaps them. *)
Definition quad : list Node := [box 0 0 0; box 1 0 2; box 2 0 4; box 3 1 0].

(** Three boxes clear of each other. *)
Definition spread : list Node := [box 0 0 0; box 1 20 0; box 2 0 20].

(** A sorted array with staged positions: a group of two nodes at x = 0
    and two nodes beyond it, each overlapping one node of the group. *)
Definition row : list Node :=
  [staged_box 0 0 0; staged_box 1 0 30; staged_box 2 4 0; staged_box 3 7 30].

(** An array in which the second node has no staged position. *)
Definition unstaged : list Node := [staged_box 0 0 0; box 1 4 0].

(** A slab of extent 10 by 4. *)
Definition slab (i : nat) (bx by_ : Z) : Node := mkNode i bx by_ 10 4 None.

(** Two overlapping slabs side by side: they reach less far into each
    other along y, the axis on which they do not differ. *)
Definition slab_pair : list Node := [slab 0 0 0; slab 1 4 0].

(** Three slabs in a row, each overlapping the other two. *)
Definition slabs : list Node := [slab 0 0 0; slab 1 4 0; slab 2 7 0].

End Box.

(** ** The algorithm *)

(** The message of the [throw] statements (the node's string form follows
    it in the thrown value). *)
Definition undefined_up : string :=
  "cannot update undefined updated position for".

Section Pfs.

(** The geometry primitives of agora-graph. *)
Variable overlap : Node -> Node -> Z -> bool.
Variable optimalVector : Node -> Node -> Z -> Point.
Variable vector : Node -> Node -> Point.
Variable diff : Point -> Point -> Point.

(** [delta(node1, node2, padding)] *)
Definition delta (node1 node2 : Node) (padding : Z) : Point :=
  if negb (overlap node1 node2 padding) then mkPoint 0 0
  else diff (optimalVector node1 node2 padding) (vector node1 node2).

(** The loop of [same]: [k] runs up from [index].  Fuel is used by an
    iteration of the loop, not by its last test. *)
Fixpoint same_loop (fuel : nat) (index : nat)
    (callback : Node -> Node -> bool) (k : nat) : M nat :=
  let* len := nodes_length in
  if (k <? len - 1)%nat then
    match fuel with
    | O => out_of_fuel
    | S fuel' =>
        let* n1 := read index in
        let* n2 := read (k + 1) in
        if negb (callback n1 n2) then ret k
        else same_loop fuel' index callback (k + 1)%nat
    end
  else ret k.

(** [same(nodes, index, callback)] *)
Definition same (index : nat) (callback : Node -> Node -> bool) : M nat :=
  let* len := nodes_length in
  same_loop len index callback index.

(** The callbacks [(n1, n2) => n1.x === n2.x] and [n1.y === n2.y]. *)
Definition same_pos (ax : axis) (n1 n2 : Node) : bool :=
  pos ax n1 =? pos ax n2.

(** The update of [maxDelta] by one [move]. *)
Definition keep_max (maxDelta move : Z) : Z :=
  if Z.abs move >? Z.abs maxDelta then move else maxDelta.

(** The two nested [for] loops that compute [maxDelta] for the group
    [i..k]. *)
Definition max_delta (ax : axis) (padding : Z) (i k : nat) : M Z :=
  let* len := nodes_length in
  for_acc i (k + 1) (fun m maxDelta =>
    for_acc (k + 1) len (fun j maxDelta =>
      let* n1 := read m in
      let* n2 := read j in
      let move := coord ax (delta n1 n2 padding) in
      ret (keep_max maxDelta move)) maxDelta) 0.

(** The push step: the [for] loop over the nodes beyond the group. *)
Definition push (ax : axis) (k : nat) (maxDelta : Z) : M unit :=
  let* len := nodes_length in
  for_ (k + 1) len (fun j =>
    let* node := read j in
    match up node with
    | None => throw undefined_up
    | Some u => write j (set_up node (Some (add_coord ax u maxDelta)))
    end).

(** One iteration of the [while] loop of a scan, from cursor [i]; the
    value is the next cursor. *)
Definition scan_iteration (ax : axis) (padding : Z) (i : nat) : M nat :=
  let* k := same i (same_pos ax) in
  let* maxDelta := max_delta ax padding i k in
  push ax k maxDelta ;;;
  ret (k + 1)%nat.

Fixpoint scan_loop (fuel : nat) (ax : axis) (padding : Z) (i : nat) : M unit :=
  let* len := nodes_length in
  if (i <? len - 1)%nat then
    match fuel with
    | O => out_of_fuel
    | S fuel' =>
        let* i' := scan_iteration ax padding i in
        scan_loop fuel' ax padding i'
    end
  else ret tt.

(** A scan along one axis; the fuel is [nodes.length] iterations. *)
Definition scan (ax : axis) (padding : Z) : M unit :=
  let* len := nodes_length in
  scan_loop len ax padding 0.

Definition scanX : Z -> M unit := scan AxisX.
Definition scanY : Z -> M unit := scan AxisY.

(** The first [forEach] of [pfs]: [n.up = { x: n.x, y: n.y }]. *)
Definition stage (n : Node) : Node := set_up n (Some (mkPoint (x n) (y n))).
Definition stage_all : M unit := forEach (fun j n => write j (stage n)).

(** The last [forEach] of [pfs]: the commit. *)
Definition place (n : Node) (u : Point) : Node :=
  mkNode (index n) (px u) (py u) (width n) (height n) None.
Definition commit_all : M unit :=
  forEach (fun j n =>
    match up n with
    | None => throw undefined_up
    | Some u => write j (place n u)
    end).

(** [pfs] after the staged positions are set. *)
Definition pfs_staged (padding : Z) : M unit :=
  sort (fun a b => x a - x b) ;;;
  scanX padding ;;;
  sort (fun a b => y a - y b) ;;;
  scanY padding ;;;
  commit_all.

(** [pfs(graph, { padding })]; the state is [graph.nodes], and the
    result object of the source wraps the same graph.  The default of the
    second argument is [{ padding: 0 }], that is [pfs 0]. *)
Definition pfs (padding : Z) : M unit :=
  stage_all ;;; pfs_staged padding.

(** The X pass of [pfs]: up to and including [scanX]. *)
Definition x_pass (padding : Z) : M unit :=
  stage_all ;;; sort (fun a b => x a - x b) ;;; scanX padding.

(** ** Pure counterparts of the loops *)

(** The length of the longest prefix of [l] whose elements satisfy [P]. *)
Fixpoint prefix_len (P : Node -> bool) (l : list Node) : nat :=
  match l with
  | [] => O
  | n :: r => if P n then S (prefix_len P r) else O
  end.

(** The last index of the run that starts at [i]. *)
Definition group_end (callback : Node -> Node -> bool) (s : list Node)
    (i : nat) : nat :=
  match s !! i with
  | Some n0 => (i + prefix_len (callback n0) (drop (S i) s))%nat
  | None => i
  end.

(** The moves of the group [i..k], in the order the loops compute them. *)
Definition moves (ax : axis) (padding : Z) (s : list Node) (i k : nat)
    : list Z :=
  flat_map
    (fun a => map (fun b => coord ax (delta a b padding)) (drop (k + 1) s))
    (take (k + 1 - i) (drop i s)).

Definition max_abs (l : list Z) : Z := fold_left keep_max l 0.

(** A [for] loop that replaces each node by [h] of it and throws at the
    first node where [h] is undefined. *)
Fixpoint update_list (h : Node -> option Node) (l : list Node)
    : outcome unit * list Node :=
  match l with
  | [] => (Ok tt, [])
  | n :: r =>
      match h n with
      | None => (Throw undefined_up, n :: r)
      | Some n' => let '(o, r') := update_list h r in (o, n' :: r')
      end
  end.

(** What the push step does to one node. *)
Definition shift (ax : axis) (d : Z) (n : Node) : option Node :=
  match up n with
  | None => None
  | Some u => Some (set_up n (Some (add_coord ax u d)))
  end.

(** What the commit does to one node. *)
Definition commit (n : Node) : option Node :=
  match up n with
  | None => None
  | Some u => Some (place n u)
  end.

(** The node after a push by [d], when it has a staged position. *)
Definition moved (ax : axis) (d : Z) (n : Node) : Node :=
  match up n with
  | None => n
  | Some u => set_up n (Some (add_coord ax u d))
  end.

(** The staged coordinate of a node. *)
Definition staged_coord (ax : axis) (n : Node) : Z :=
  match up n with
  | None => 0
  | Some u => coord ax u
  end.

(** A scan as a function on the part of the array from the cursor on,
    when every node has a staged position: the first run stays, the
    nodes beyond it are pushed, and the scan goes on from there. *)
Fixpoint scan_list (fuel : nat) (ax : axis) (padding : Z) (l : list Node)
    : list Node :=
  match fuel with
  | O => l
  | S fuel' =>
      match l with
      | [] => []
      | n0 :: r =>
          let g := prefix_len (same_pos ax n0) r in
          let d := max_abs (moves ax padding l 0 g) in
          n0 :: take g r ++ scan_list fuel' ax padding (moved ax d <$> drop g r)
      end
  end.

(** [n'] is [n] but for the staged coordinate on [ax]. *)
Definition frame (ax : axis) (n n' : Node) : Prop :=
  exists d, n' = moved ax d n.

(** Every node of the array has a staged position. *)
Definition all_staged (l : list Node) : Prop :=
  Forall (fun n => is_Some (up n)) l.

(** The array is in ascending order of the coordinate on [ax]. *)
Definition ascending (ax : axis) (l : list Node) : Prop :=
  StronglySorted (fun a b => pos ax a <= pos ax b) l.

(** [a] in [l] and [a'] in [l'] sit at the same index. *)
Definition at_same_index (l l' : list Node) (a a' : Node) : Prop :=
  exists j, l !! j = Some a /\ l' !! j = Some a'.

(** How far the staged coordinate of [a'] is from that of [a]. *)
Definition offset (ax : axis) (a a' : Node) : Z :=
  staged_coord ax a' - staged_coord ax a.

(** ** The contract of the geometry primitives *)

(** A pair in ascending order on an axis is never pulled together on
    that axis: its delta points in the direction of the scan. *)
Definition direction_consistent (padding : Z) : Prop :=
  forall ax a b, pos ax a < pos ax b -> 0 <= coord ax (delta a b padding).

(** The primitives read the position and the extent of a node, not its
    staged position. *)
Definition staged_blind : Prop :=
  forall a b u v padding,
    overlap (set_up a u) (set_up b v) padding = overlap a b padding /\
    optimalVector (set_up a u) (set_up b v) padding =
      optimalVector a b padding /\
    vector (set_up a u) (set_up b v) = vector a b.

(** After the scan, [b] is at least [w a b] further from [a] than before
    when it lies beyond [a] on the axis, and as far as before when the
    two share the coordinate. *)
Definition pushed_apart (ax : axis) (w : Node -> Node -> Z)
    (a a' b b' : Node) : Prop :=
  (pos ax a < pos ax b -> w a b <= offset ax b b' - offset ax a a') /\
  (pos ax a = pos ax b -> offset ax a a' = offset ax b b').

(** The comparators of the two [sort] calls of [pfs]:
    [(a, b) => a.x - b.x] and [(a, b) => a.y - b.y]. *)
Definition by_pos (ax : axis) (a b : Node) : Z := pos ax a - pos ax b.

(** The node after the commit, when it has a staged position. *)
Definition committed (n : Node) : Node :=
  match up n with
  | None => n
  | Some u => place n u
  end.

(** The array after the X pass and after the Y pass of [pfs], when no
    staged position is missing. *)
Definition after_x (padding : Z) (s : list Node) : list Node :=
  let s1 := sort_list (by_pos AxisX) s in
  scan_list (length s1) AxisX padding s1.
Definition after_y (padding : Z) (s : list Node) : list Node :=
  let s3 := sort_list (by_pos AxisY) (after_x padding s) in
  scan_list (length s3) AxisY padding s3.

(** The array that [pfs] leaves. *)
Definition pfs_nodes (padding : Z) (s : list Node) : list Node :=
  committed <$> after_y padding (stage <$> s).

(** The node [a] of the input goes through [pfs] to the node [a'] of its
    result: [a1] is the node after the X pass and [a2] after the Y pass. *)
Definition traced (padding : Z) (s : list Node) (a a' : Node) : Prop :=
  exists a1 a2,
    a ∈ s /\
    at_same_index (sort_list (by_pos AxisX) (stage <$> s))
      (after_x padding (stage <$> s)) (stage a) a1 /\
    at_same_index (sort_list (by_pos AxisY) (after_x padding (stage <$> s)))
      (after_y padding (stage <$> s)) a1 a2 /\
    a' = committed a2.

(** ** Running the loops *)

Lemma bind_run {A B} (m : M A) (f : A -> M B) s a s' :
  m s = (Ok a, s') -> bind m f s = f a s'.
Proof. intros H. unfold bind. now rewrite H. Qed.

Lemma read_run s j n : s !! j = Some n -> read j s = (Ok n, s).
Proof. intros H. unfold read. now rewrite H. Qed.

Lemma for_update (h : Node -> option Node) (body : nat -> Node -> M unit) :
  (forall j n s, body j n s =
     match h n with
     | None => throw undefined_up s
     | Some n' => write j n' s
     end) ->
  forall n j s, (j + n)%nat = length s ->
    for_loop n j (fun j => let* n := read j in body j n) s =
    (let '(o, l') := update_list h (drop j s) in (o, take j s ++ l')).
Proof.
  intros Hbody. induction n as [|n IH]; intros j s Hlen.
  - rewrite drop_ge, take_ge by lia. simpl. now rewrite app_nil_r.
  - destruct (lookup_lt_is_Some_2 s j) as [a Ha]; [lia|].
    simpl. unfold bind at 1. unfold bind at 1. rewrite (read_run _ _ _ Ha), Hbody.
    rewrite (drop_S _ _ _ Ha). simpl. destruct (h a) as [a'|].
    + unfold write. rewrite IH by (rewrite length_insert; lia).
      rewrite drop_insert_lt by lia.
      rewrite (take_S_r (<[j:=a']> s) j a')
        by (apply list_lookup_insert_eq; lia).
      rewrite take_insert_ge by lia.
      destruct (update_list h (drop (S j) s)) as [o r'].
      now rewrite <- app_assoc.
    + unfold throw. now rewrite take_drop_middle.
Qed.
Lemma prefix_len_le P l : (prefix_len P l <= length l)%nat.
Proof. induction l as [|n r IH]; simpl; [lia|]. destruct (P n); simpl; lia. Qed.

(** Inside the run every element satisfies [P]; the element after it,
    when there is one, does not. *)
Lemma prefix_len_inside P l t n :
  (t < prefix_len P l)%nat -> l !! t = Some n -> P n = true.
Proof.
  revert t. induction l as [|m r IH]; simpl; intros t Ht Hn; [lia|].
  destruct (P m) eqn:Hm; [|lia].
  destruct t as [|t]; simpl in Hn.
  - now inversion Hn; subst.
  - apply (IH t); [lia|exact Hn].
Qed.

Lemma prefix_len_stop P l n :
  l !! prefix_len P l = Some n -> P n = false.
Proof.
  induction l as [|m r IH]; simpl; intros Hn; [discriminate|].
  destruct (P m) eqn:Hm; simpl in Hn.
  - now apply IH.
  - now inversion Hn; subst.
Qed.

Lemma same_loop_run callback s i n0 :
  s !! i = Some n0 ->
  forall fuel k, (i <= k)%nat -> (k < length s)%nat ->
    (length s - 1 - k <= fuel)%nat ->
    same_loop fuel i callback k s =
    (Ok (k + prefix_len (callback n0) (drop (S k) s))%nat, s).
Proof.
  intros Hi. induction fuel as [|fuel IH]; intros k Hik Hk Hfuel.
  - simpl. unfold bind, nodes_length.
    replace (k <? length s - 1)%nat with false
      by (symmetry; apply Nat.ltb_ge; lia).
    rewrite drop_ge by lia. simpl. unfold ret. do 2 f_equal. lia.
  - simpl. unfold bind at 1. unfold nodes_length at 1.
    destruct (k <? length s - 1)%nat eqn:Hlt.
    + apply Nat.ltb_lt in Hlt.
      destruct (lookup_lt_is_Some_2 s (S k)) as [n2 Hn2]; [lia|].
      rewrite (bind_run _ _ _ _ _ (read_run _ _ _ Hi)).
      replace (k + 1)%nat with (S k) by lia.
      rewrite (bind_run _ _ _ _ _ (read_run _ _ _ Hn2)).
      rewrite (drop_S _ _ _ Hn2). simpl.
      destruct (callback n0 n2); simpl.
      * rewrite IH by lia. do 2 f_equal. lia.
      * unfold ret. do 2 f_equal. lia.
    + apply Nat.ltb_ge in Hlt. rewrite drop_ge by lia. simpl.
      unfold ret. do 2 f_equal. lia.
Qed.

(** [same] returns the end of the run that starts at [i] and leaves the
    array as it is. *)
Lemma same_run callback s i :
  (i < length s)%nat -> same i callback s = (Ok (group_end callback s i), s).
Proof.
  intros Hi. destruct (lookup_lt_is_Some_2 s i) as [n0 Hn0]; [lia|].
  unfold same, group_end. rewrite Hn0.
  rewrite (bind_run _ _ s (length s) s) by reflexivity.
  apply same_loop_run; auto; lia.
Qed.

Lemma group_end_bounds callback s i :
  (i < length s)%nat ->
  (i <= group_end callback s i <= length s - 1)%nat.
Proof.
  intros Hi. unfold group_end.
  destruct (s !! i) as [n0|]; [|lia].
  pose proof (prefix_len_le (callback n0) (drop (S i) s)) as H.
  rewrite length_drop in H. lia.
Qed.

Lemma inner_loop_run ax padding s m a :
  s !! m = Some a ->
  forall n j acc, (j + n <= length s)%nat ->
    for_acc_loop n j (fun j maxDelta =>
      let* n1 := read m in
      let* n2 := read j in
      let move := coord ax (delta n1 n2 padding) in
      ret (keep_max maxDelta move)) acc s =
    (Ok (fold_left keep_max
           (map (fun b => coord ax (delta a b padding)) (take n (drop j s)))
           acc), s).
Proof.
  intros Hm. induction n as [|n IH]; intros j acc Hlen; [reflexivity|].
  destruct (lookup_lt_is_Some_2 s j) as [b Hb]; [lia|].
  simpl. unfold bind at 1.
  rewrite (bind_run _ _ _ _ _ (read_run _ _ _ Hm)).
  rewrite (bind_run _ _ _ _ _ (read_run _ _ _ Hb)).
  unfold ret at 1. rewrite IH by lia.
  now rewrite (drop_S _ _ _ Hb).
Qed.

Lemma flat_map_nil {A B} (l : list A) : flat_map (fun _ => @nil B) l = [].
Proof. now induction l. Qed.

Lemma outer_loop_run ax padding s k :
  forall n m acc, (m + n <= length s \/ length s <= k + 1)%nat ->
    for_acc_loop n m (fun m maxDelta =>
      for_acc (k + 1) (length s) (fun j maxDelta =>
        let* n1 := read m in
        let* n2 := read j in
        let move := coord ax (delta n1 n2 padding) in
        ret (keep_max maxDelta move)) maxDelta) acc s =
    (Ok (fold_left keep_max
           (flat_map
              (fun a => map (fun b => coord ax (delta a b padding))
                          (drop (k + 1) s))
              (take n (drop m s)))
           acc), s).
Proof.
  induction n as [|n IH]; intros m acc Hlen; [reflexivity|].
  simpl. unfold bind at 1.
  destruct (decide (length s <= k + 1)%nat) as [Hk|Hk].
  - unfold for_acc at 1. replace (length s - (k + 1))%nat with O by lia.
    simpl. unfold ret at 1. rewrite IH by lia.
    rewrite (drop_ge s (k + 1)) by lia. simpl.
    now rewrite !flat_map_nil.
  - destruct (lookup_lt_is_Some_2 s m) as [a Ha]; [lia|].
    unfold for_acc at 1.
    rewrite (inner_loop_run ax padding s m a Ha) by lia.
    rewrite IH by lia.
    rewrite (drop_S _ _ _ Ha). simpl.
    rewrite fold_left_app.
    now rewrite (take_ge (drop (k + 1) s)) by (rewrite length_drop; lia).
Qed.

(** The nested loops compute the first move of greatest absolute value
    and leave the array as it is. *)
Lemma max_delta_run ax padding i k s :
  max_delta ax padding i k s = (Ok (max_abs (moves ax padding s i k)), s).
Proof.
  unfold max_delta, moves, max_abs.
  rewrite (bind_run _ _ s (length s) s) by reflexivity.
  unfold for_acc at 1.
  destruct (decide (k + 1 - i = 0)%nat) as [Hz|Hz].
  - rewrite Hz. reflexivity.
  - apply outer_loop_run. lia.
Qed.

(** The push step runs as [update_list] over the nodes beyond [k]. *)
Lemma push_run ax k d s :
  push ax k d s =
  (let '(o, l') := update_list (shift ax d) (drop (k + 1) s) in
   (o, take (k + 1) s ++ l')).
Proof.
  unfold push. rewrite (bind_run _ _ s (length s) s) by reflexivity.
  unfold for_.
  destruct (decide (k + 1 <= length s)%nat) as [Hk|Hk].
  - apply (for_update (shift ax d)); [|lia].
    intros j n s0. unfold shift. now destruct (up n).
  - replace (length s - (k + 1))%nat with O by lia.
    rewrite drop_ge, take_ge by lia. simpl. now rewrite app_nil_r.
Qed.

Lemma forEach_update (h : Node -> option Node) (f : nat -> Node -> M unit) s :
  (forall j n s, f j n s =
     match h n with
     | None => throw undefined_up s
     | Some n' => write j n' s
     end) ->
  forEach f s = update_list h s.
Proof.
  intros Hf. unfold forEach.
  rewrite (bind_run _ _ s (length s) s) by reflexivity.
  unfold for_. rewrite (for_update h f Hf) by lia.
  rewrite drop_0. simpl. now destruct (update_list h s).
Qed.

Lemma update_list_total (h : Node -> option Node) (g : Node -> Node) l :
  (forall n, n ∈ l -> h n = Some (g n)) ->
  update_list h l = (Ok tt, g <$> l).
Proof.
  induction l as [|n r IH]; intros H; [reflexivity|].
  simpl. rewrite (H n) by constructor.
  rewrite IH; [reflexivity|].
  intros m Hm. apply H. now constructor.
Qed.

Lemma stage_all_run s : stage_all s = (Ok tt, stage <$> s).
Proof.
  unfold stage_all.
  rewrite (forEach_update (fun n => Some (stage n))) by reflexivity.
  now apply update_list_total.
Qed.

Lemma commit_all_run s : commit_all s = update_list commit s.
Proof.
  unfold commit_all. apply forEach_update.
  intros j n s0. unfold commit. now destruct (up n).
Qed.

(** One iteration, in terms of the pure counterparts. *)
Lemma scan_iteration_run ax padding i s :
  (i < length s)%nat ->
  scan_iteration ax padding i s =
  (let k := group_end (same_pos ax) s i in
   let d := max_abs (moves ax padding s i k) in
   let '(o, l') := update_list (shift ax d) (drop (k + 1) s) in
   (match o with
    | Ok _ => Ok (k + 1)%nat
    | Throw msg => Throw msg
    | OutOfFuel => OutOfFuel
    end, take (k + 1) s ++ l')).
Proof.
  intros Hi. unfold scan_iteration.
  rewrite (bind_run _ _ _ _ _ (same_run _ _ _ Hi)).
  rewrite (bind_run _ _ _ _ _ (max_delta_run _ _ _ _ _)).
  unfold bind. rewrite push_run. simpl.
  destruct (update_list _ _) as [[[]|msg|] l']; reflexivity.
Qed.

(** ** Every run of a scan: frame, throws and fuel *)

Lemma moved_0 ax n : moved ax 0 n = n.
Proof.
  unfold moved. destruct n as [i0 x0 y0 w0 h0 [[ux uy]|]]; [|reflexivity].
  destruct ax; unfold set_up, add_coord; simpl; now rewrite Z.add_0_r.
Qed.

Lemma moved_moved ax d e n : moved ax e (moved ax d n) = moved ax (d + e) n.
Proof.
  unfold moved. destruct n as [i0 x0 y0 w0 h0 [[ux uy]|]]; [|reflexivity].
  destruct ax; unfold set_up, add_coord; simpl; now rewrite Z.add_assoc.
Qed.

Lemma frame_refl ax n : frame ax n n.
Proof. exists 0. now rewrite moved_0. Qed.

Lemma frame_trans ax n1 n2 n3 :
  frame ax n1 n2 -> frame ax n2 n3 -> frame ax n1 n3.
Proof.
  intros [d ->] [e ->]. exists (d + e). now rewrite moved_moved.
Qed.

Lemma Forall2_frame_refl ax l : Forall2 (frame ax) l l.
Proof. induction l; constructor; auto using frame_refl. Qed.

Lemma Forall2_frame_trans ax l1 l2 l3 :
  Forall2 (frame ax) l1 l2 -> Forall2 (frame ax) l2 l3 ->
  Forall2 (frame ax) l1 l3.
Proof.
  intros H. revert l3. induction H; intros l3 H3; inversion H3; subst;
    constructor; eauto using frame_trans.
Qed.

Lemma shift_moved ax d n n' : shift ax d n = Some n' -> n' = moved ax d n.
Proof.
  unfold shift, moved. destruct (up n); intros H; now inversion H.
Qed.

(** The push loop ends normally or with the throw of the source, and it
    changes nothing but staged coordinates on [ax]. *)
Lemma update_list_shift ax d l o l' :
  update_list (shift ax d) l = (o, l') ->
  (o = Ok tt \/ o = Throw undefined_up) /\ Forall2 (frame ax) l l'.
Proof.
  revert o l'. induction l as [|n r IH]; simpl; intros o l' H.
  - inversion H; subst. split; [now left|constructor].
  - destruct (shift ax d n) as [n'|] eqn:Hn.
    + destruct (update_list (shift ax d) r) as [o1 r1].
      inversion H; subst. destruct (IH _ _ eq_refl) as [Ho Hf].
      split; [exact Ho|]. constructor; [|exact Hf].
      exists d. now apply shift_moved.
    + inversion H; subst. split; [now right|apply Forall2_frame_refl].
Qed.

Lemma scan_loop_any ax padding :
  forall fuel i s o s', (length s - 1 - i <= fuel)%nat ->
    scan_loop fuel ax padding i s = (o, s') ->
    (o = Ok tt \/ o = Throw undefined_up) /\ Forall2 (frame ax) s s'.
Proof.
  induction fuel as [|fuel IH]; intros i s o s' Hfuel H.
  - simpl in H. unfold bind, nodes_length in H.
    replace (i <? length s - 1)%nat with false in H
      by (symmetry; apply Nat.ltb_ge; lia).
    inversion H; subst. split; [now left|apply Forall2_frame_refl].
  - simpl in H. unfold bind at 1 in H. unfold nodes_length at 1 in H.
    destruct (i <? length s - 1)%nat eqn:Hlt.
    + apply Nat.ltb_lt in Hlt. unfold bind in H.
      rewrite scan_iteration_run in H by lia. simpl in H.
      pose proof (group_end_bounds (same_pos ax) s i ltac:(lia)) as Hk.
      set (k := group_end (same_pos ax) s i) in *.
      set (d := max_abs (moves ax padding s i k)) in *.
      destruct (update_list (shift ax d) (drop (k + 1) s)) as [o1 l1] eqn:Hu.
      destruct (update_list_shift _ _ _ _ _ Hu) as [Ho1 Hf1].
      assert (Hf : Forall2 (frame ax) s (take (k + 1) s ++ l1)).
      { rewrite <- (take_drop (k + 1) s) at 1.
        apply Forall2_app; [apply Forall2_frame_refl|exact Hf1]. }
      destruct Ho1 as [-> | ->].
      * apply IH in H.
        -- destruct H as [Ho Hf']. split; [exact Ho|].
           eapply Forall2_frame_trans; eauto.
        -- apply Forall2_length in Hf. rewrite <- Hf. lia.
      * inversion H; subst. split; [now right|exact Hf].
    + inversion H; subst. split; [now left|apply Forall2_frame_refl].
Qed.

Lemma scan_any ax padding s o s' :
  scan ax padding s = (o, s') ->
  (o = Ok tt \/ o = Throw undefined_up) /\ Forall2 (frame ax) s s'.
Proof.
  unfold scan. rewrite (bind_run _ _ s (length s) s) by reflexivity.
  apply scan_loop_any. lia.
Qed.

(** ** Runs on arrays whose nodes all have a staged position *)

Lemma update_list_staged ax d l :
  all_staged l -> update_list (shift ax d) l = (Ok tt, moved ax d <$> l).
Proof.
  intros H. apply update_list_total. intros n Hn.
  unfold all_staged in H. rewrite Forall_forall in H.
  destruct (H n Hn) as [u Hu]. unfold shift, moved. now rewrite Hu.
Qed.

Lemma moved_staged ax d n : is_Some (up n) -> is_Some (up (moved ax d n)).
Proof. intros [u Hu]. unfold moved. rewrite Hu. simpl. eauto. Qed.

Lemma all_staged_moved ax d l : all_staged l -> all_staged (moved ax d <$> l).
Proof.
  unfold all_staged. intros H. apply Forall_fmap.
  eapply Forall_impl; [exact H|]. intros n Hn. now apply moved_staged.
Qed.

Lemma scan_list_nil fuel ax padding : scan_list fuel ax padding [] = [].
Proof. now destruct fuel. Qed.

Lemma moves_drop ax padding s i g :
  moves ax padding s i (i + g) = moves ax padding (drop i s) 0 g.
Proof.
  unfold moves. rewrite drop_0, drop_drop.
  replace (i + g + 1 - i)%nat with (g + 1 - 0)%nat by lia.
  now replace (i + (g + 1))%nat with (i + g + 1)%nat by lia.
Qed.

Lemma scan_loop_staged ax padding :
  forall fuel i s, all_staged s -> (i <= length s)%nat ->
    (length s - 1 - i <= fuel)%nat ->
    scan_loop fuel ax padding i s =
    (Ok tt, take i s ++ scan_list fuel ax padding (drop i s)).
Proof.
  induction fuel as [|fuel IH]; intros i s Hs Hi Hfuel.
  - simpl. unfold bind, nodes_length.
    replace (i <? length s - 1)%nat with false
      by (symmetry; apply Nat.ltb_ge; lia).
    now rewrite take_drop.
  - cbn [scan_loop]. unfold bind at 1. unfold nodes_length at 1.
    destruct (i <? length s - 1)%nat eqn:Hlt.
    + apply Nat.ltb_lt in Hlt.
      destruct (lookup_lt_is_Some_2 s i) as [n0 Hn0]; [lia|].
      unfold bind. rewrite scan_iteration_run by lia. cbv zeta.
      pose proof (group_end_bounds (same_pos ax) s i ltac:(lia)) as Hk.
      unfold group_end in *. rewrite Hn0 in *.
      set (r := drop (S i) s) in *.
      set (g := prefix_len (same_pos ax n0) r) in *.
      rewrite update_list_staged by now apply Forall_drop.
      assert (Hlen : length (take (i + g + 1) s) = (i + g + 1)%nat)
        by (rewrite length_take; lia).
      rewrite IH.
      * rewrite take_app_length', drop_app_length' by now rewrite Hlen.
        rewrite (drop_S _ _ _ Hn0). fold r. cbn [scan_list]. fold g.
        rewrite moves_drop, (drop_S _ _ _ Hn0). fold r.
        replace (i + g + 1)%nat with (i + (S g))%nat by lia.
        rewrite <- take_take_drop, (drop_S _ _ _ Hn0). fold r.
        rewrite <- (drop_drop s (S g) i), (drop_S _ _ _ Hn0). fold r.
        simpl. now rewrite <- app_assoc.
      * apply Forall_app; split; [now apply Forall_take|].
        apply all_staged_moved. now apply Forall_drop.
      * rewrite length_app, Hlen, length_fmap, length_drop. lia.
      * rewrite length_app, Hlen, length_fmap, length_drop. lia.
    + apply Nat.ltb_ge in Hlt. unfold ret.
      rewrite <- (take_drop i s) at 1. do 2 f_equal.
      assert (Hd : (length (drop i s) <= 1)%nat) by (rewrite length_drop; lia).
      destruct (drop i s) as [|n0 [|n1 r]]; simpl in Hd; try lia;
        cbn [scan_list]; [reflexivity|].
      simpl. now rewrite scan_list_nil.
Qed.

(** A scan of an array whose nodes all have a staged position returns
    normally, with the array that [scan_list] computes. *)
Lemma scan_staged ax padding s :
  all_staged s ->
  scan ax padding s = (Ok tt, scan_list (length s) ax padding s).
Proof.
  intros Hs. unfold scan.
  rewrite (bind_run _ _ s (length s) s) by reflexivity.
  rewrite scan_loop_staged by (auto; lia). now rewrite take_0, drop_0.
Qed.

(** ** What a scan does to a sorted array *)

Lemma pos_moved ax' ax d n : pos ax' (moved ax d n) = pos ax' n.
Proof. unfold moved. destruct (up n), ax'; reflexivity. Qed.

Lemma staged_coord_moved ax d n :
  is_Some (up n) -> staged_coord ax (moved ax d n) = staged_coord ax n + d.
Proof.
  intros [u Hu]. unfold staged_coord, moved. rewrite Hu. simpl.
  now destruct ax.
Qed.

Lemma offset_moved_l ax d b b' :
  is_Some (up b) -> offset ax (moved ax d b) b' = offset ax b b' - d.
Proof. intros Hb. unfold offset. rewrite staged_coord_moved by easy. lia. Qed.

Lemma at_same_index_app_inv l1 l1' l2 l2' a a' :
  length l1 = length l1' ->
  at_same_index (l1 ++ l2) (l1' ++ l2') a a' ->
  at_same_index l1 l1' a a' \/ at_same_index l2 l2' a a'.
Proof.
  intros Hlen [j [H1 H2]].
  apply lookup_app_Some in H1. apply lookup_app_Some in H2.
  destruct H1 as [H1|[Hj1 H1]], H2 as [H2|[Hj2 H2]].
  - left. now exists j.
  - apply lookup_lt_Some in H1. lia.
  - apply lookup_lt_Some in H2. lia.
  - right. exists (j - length l1)%nat. split; [exact H1|].
    now rewrite Hlen.
Qed.

Lemma at_same_index_diag l a a' :
  at_same_index l l a a' -> a' = a /\ a ∈ l.
Proof.
  intros [j [H1 H2]]. split; [congruence|].
  eapply list_elem_of_lookup_2; eauto.
Qed.

Lemma at_same_index_fmap (f : Node -> Node) l l' a a' :
  at_same_index l l' a a' -> at_same_index (f <$> l) l' (f a) a'.
Proof.
  intros [j [H1 H2]]. exists j. split; [|exact H2].
  now rewrite list_lookup_fmap, H1.
Qed.

Lemma at_same_index_elem l l' a a' :
  at_same_index l l' a a' -> a ∈ l /\ a' ∈ l'.
Proof.
  intros [j [H1 H2]]. split; eapply list_elem_of_lookup_2; eauto.
Qed.

Lemma keep_max_nonneg acc m :
  0 <= acc -> 0 <= m -> keep_max acc m = Z.max acc m.
Proof.
  intros Ha Hm. unfold keep_max.
  destruct (Z.abs m >? Z.abs acc) eqn:H.
  - apply Z.gtb_lt in H. lia.
  - rewrite Z.gtb_ltb in H. apply Z.ltb_ge in H. lia.
Qed.

Lemma fold_keep_max_nonneg l :
  Forall (fun m => 0 <= m) l ->
  forall acc, 0 <= acc ->
    acc <= fold_left keep_max l acc /\
    Forall (fun m => m <= fold_left keep_max l acc) l.
Proof.
  induction 1 as [|m l Hm Hl IH]; intros acc Hacc; simpl.
  - split; [lia|constructor].
  - rewrite keep_max_nonneg by lia.
    destruct (IH (Z.max acc m) ltac:(lia)) as [H1 H2].
    split; [lia|]. constructor; [lia|exact H2].
Qed.

Lemma max_abs_nonneg l :
  Forall (fun m => 0 <= m) l ->
  0 <= max_abs l /\ Forall (fun m => m <= max_abs l) l.
Proof.
  intros H. destruct (fold_keep_max_nonneg l H 0 ltac:(lia)). now split.
Qed.

(** In a sorted array the run of the first node holds the nodes that
    share its coordinate, and the nodes beyond it lie strictly further. *)
Lemma group_split ax n0 r :
  ascending ax (n0 :: r) ->
  let g := prefix_len (same_pos ax n0) r in
  Forall (fun a => pos ax a = pos ax n0) (take g r) /\
  Forall (fun b => pos ax n0 < pos ax b) (drop g r).
Proof.
  unfold ascending. intros H. apply StronglySorted_cons in H.
  destruct H as [Hle Hr]. simpl.
  induction r as [|m r IH]; simpl; [split; constructor|].
  apply Forall_cons in Hle. destruct Hle as [Hm Hle].
  apply StronglySorted_cons in Hr. destruct Hr as [Hmr Hr].
  unfold same_pos at 1 3. destruct (pos ax n0 =? pos ax m) eqn:E; simpl.
  - apply Z.eqb_eq in E. destruct (IH Hle Hr) as [H1 H2].
    split; [constructor; [lia|exact H1]|exact H2].
  - apply Z.eqb_neq in E. split; [constructor|].
    constructor; [lia|].
    eapply Forall_impl; [exact Hmr|]. simpl. intros b Hb. lia.
Qed.

Lemma moves_cons ax padding n0 r g :
  moves ax padding (n0 :: r) 0 g =
  flat_map
    (fun a => map (fun b => coord ax (delta a b padding)) (drop g r))
    (n0 :: take g r).
Proof. unfold moves. now rewrite Nat.add_1_r, Nat.sub_0_r. Qed.

Lemma moves_elem ax padding n0 r g a b :
  a ∈ n0 :: take g r -> b ∈ drop g r ->
  coord ax (delta a b padding) ∈ moves ax padding (n0 :: r) 0 g.
Proof.
  intros Ha Hb. rewrite moves_cons.
  apply list_elem_of_In. apply in_flat_map. exists a. split.
  - now apply list_elem_of_In.
  - apply in_map_iff. exists b. split; [reflexivity|].
    now apply list_elem_of_In.
Qed.

Lemma moves_inv ax padding n0 r g m :
  m ∈ moves ax padding (n0 :: r) 0 g ->
  exists a b, a ∈ n0 :: take g r /\ b ∈ drop g r /\
              m = coord ax (delta a b padding).
Proof.
  rewrite moves_cons.
  intros H. apply list_elem_of_In, in_flat_map in H.
  destruct H as [a [Ha H]]. apply in_map_iff in H.
  destruct H as [b [Hm Hb]]. exists a, b.
  split; [now apply list_elem_of_In|].
  split; [now apply list_elem_of_In|easy].
Qed.

Lemma offset_diag ax a : offset ax a a = 0.
Proof. unfold offset. lia. Qed.

(** The nodes keep their place in the array; each is pushed forward by
    its offset, and every pair ends up [pushed_apart]. *)
Lemma scan_list_apart ax padding (w : Node -> Node -> Z) :
  direction_consistent padding ->
  (forall a b d e, w (moved ax d a) (moved ax e b) = w a b) ->
  (forall a b, pos ax a < pos ax b -> w a b <= coord ax (delta a b padding)) ->
  forall fuel l, (length l <= fuel)%nat -> ascending ax l -> all_staged l ->
    length (scan_list fuel ax padding l) = length l /\
    (forall a a', at_same_index l (scan_list fuel ax padding l) a a' ->
       a' = moved ax (offset ax a a') a /\ 0 <= offset ax a a') /\
    (forall a a' b b',
       at_same_index l (scan_list fuel ax padding l) a a' ->
       at_same_index l (scan_list fuel ax padding l) b b' ->
       pushed_apart ax w a a' b b').
Proof.
  intros Hdir Hw1 Hw2.
  induction fuel as [|fuel IH]; intros l Hlen Hasc Hst.
  { destruct l; [|simpl in Hlen; lia]. simpl.
    split; [reflexivity|].
    split; [intros a a' [j [H _]]|intros a a' b b' [j [H _]]];
      now rewrite lookup_nil in H. }
  destruct l as [|n0 r].
  { simpl. split; [reflexivity|].
    split; [intros a a' [j [H _]]|intros a a' b b' [j [H _]]];
      now rewrite lookup_nil in H. }
  cbn [scan_list].
  destruct (group_split ax n0 r Hasc) as [Hgrp Hbey].
  set (g := prefix_len (same_pos ax n0) r) in *.
  set (d := max_abs (moves ax padding (n0 :: r) 0 g)).
  set (rest := drop g r) in *.
  set (rec := scan_list fuel ax padding (moved ax d <$> rest)).
  assert (Hgrp' : forall a, a ∈ n0 :: take g r -> pos ax a = pos ax n0).
  { intros a Ha. apply elem_of_cons in Ha. destruct Ha as [->|Ha]; [easy|].
    rewrite Forall_forall in Hgrp. now apply Hgrp. }
  assert (Hbey' : forall b, b ∈ rest -> pos ax n0 < pos ax b).
  { rewrite Forall_forall in Hbey. exact Hbey. }
  assert (Hrst : all_staged rest).
  { apply Forall_drop. apply Forall_cons in Hst. now destruct Hst. }
  assert (Hmv : Forall (fun m => 0 <= m) (moves ax padding (n0 :: r) 0 g)).
  { apply Forall_forall. intros m Hm.
    apply moves_inv in Hm. destruct Hm as [a [b [Ha [Hb ->]]]].
    apply Hdir. rewrite (Hgrp' a Ha). now apply Hbey'. }
  destruct (max_abs_nonneg _ Hmv) as [Hd Hmax]. fold d in Hd, Hmax.
  assert (Hdab : forall a b, a ∈ n0 :: take g r -> b ∈ rest ->
                   coord ax (delta a b padding) <= d).
  { intros a b Ha Hb. rewrite Forall_forall in Hmax.
    apply Hmax. now apply moves_elem. }
  destruct (IH (moved ax d <$> rest)) as [IHlen [IHfr IHpairs]].
  { rewrite length_fmap. unfold rest. rewrite length_drop.
    simpl in Hlen. lia. }
  { unfold ascending in *. apply StronglySorted_cons in Hasc.
    destruct Hasc as [_ Hr]. rewrite <- (take_drop g r) in Hr. apply StronglySorted_app_1_r in Hr.
    eapply (StronglySorted_fmap (moved ax d)); [|exact Hr].
    intros a b. now rewrite !pos_moved. }
  { now apply all_staged_moved. }
  fold rec in IHlen, IHfr, IHpairs.
  assert (Hcls : forall a a',
    at_same_index (n0 :: r) (n0 :: take g r ++ rec) a a' ->
    (a' = a /\ a ∈ n0 :: take g r) \/
    (a ∈ rest /\ is_Some (up a) /\
     at_same_index (moved ax d <$> rest) rec (moved ax d a) a')).
  { intros a a' H.
    rewrite <- (take_drop g r) in H at 1. fold rest in H.
    change (at_same_index ((n0 :: take g r) ++ rest)
              ((n0 :: take g r) ++ rec) a a') in H.
    apply at_same_index_app_inv in H; [|reflexivity].
    destruct H as [H|H].
    - left. now apply at_same_index_diag.
    - right. pose proof (at_same_index_elem _ _ _ _ H) as [Ha _].
      split; [exact Ha|]. split.
      + unfold all_staged in Hrst. rewrite Forall_forall in Hrst. auto.
      + now apply at_same_index_fmap. }
  split; [|split].
  - simpl. rewrite length_app, IHlen, length_fmap.
    rewrite <- (length_app (take g r) rest). unfold rest.
    now rewrite take_drop.
  - intros a a' H. destruct (Hcls a a' H) as [[-> Ha]|[Ha [Hsa Hr]]].
    + rewrite offset_diag, moved_0. split; [reflexivity|lia].
    + destruct (IHfr _ _ Hr) as [Heq Hpos].
      rewrite offset_moved_l in Heq, Hpos by easy.
      rewrite moved_moved in Heq.
      replace (d + (offset ax a a' - d)) with (offset ax a a') in Heq by lia.
      split; [exact Heq|lia].
  - intros a a' b b' Ha Hb.
    destruct (Hcls a a' Ha) as [[-> Ha1]|[Ha1 [Hsa Har]]];
      destruct (Hcls b b' Hb) as [[-> Hb1]|[Hb1 [Hsb Hbr]]];
      unfold pushed_apart.
    + rewrite (Hgrp' a Ha1), (Hgrp' b Hb1), !offset_diag.
      split; intros; lia.
    + pose proof (Hgrp' a Ha1) as Pa. pose proof (Hbey' b Hb1) as Pb.
      destruct (IHfr _ _ Hbr) as [_ Hpos].
      rewrite offset_moved_l in Hpos by easy.
      rewrite offset_diag. split; [|lia].
      intros Hlt. pose proof (Hw2 a b Hlt). pose proof (Hdab a b Ha1 Hb1). lia.
    + pose proof (Hgrp' b Hb1) as Pb. pose proof (Hbey' a Ha1) as Pa.
      split; lia.
    + destruct (IHpairs _ _ _ _ Har Hbr) as [H1 H2].
      rewrite !pos_moved, Hw1, !offset_moved_l in H1 by easy.
      rewrite !pos_moved, !offset_moved_l in H2 by easy.
      split; intros H; [apply H1 in H|apply H2 in H]; lia.
Qed.

(** ** The two sorts and the run of [pfs] *)

Lemma insert_sorted_perm cmp n l : insert_sorted cmp n l ≡ₚ n :: l.
Proof.
  induction l as [|m r IH]; simpl; [reflexivity|].
  destruct (cmp n m <=? 0); [reflexivity|].
  rewrite IH. apply perm_swap.
Qed.

Lemma sort_list_perm cmp l : sort_list cmp l ≡ₚ l.
Proof.
  induction l as [|n r IH]; simpl; [reflexivity|].
  rewrite insert_sorted_perm. now rewrite IH.
Qed.

Lemma sort_list_elem cmp l n : n ∈ sort_list cmp l <-> n ∈ l.
Proof. now rewrite sort_list_perm. Qed.

Lemma sort_list_length cmp l : length (sort_list cmp l) = length l.
Proof. apply Permutation_length, sort_list_perm. Qed.

Lemma insert_sorted_ascending ax n l :
  ascending ax l -> ascending ax (insert_sorted (by_pos ax) n l).
Proof.
  unfold ascending, by_pos. induction l as [|m r IH]; simpl; intros H.
  - repeat constructor.
  - destruct (pos ax n - pos ax m <=? 0) eqn:E.
    + apply Z.leb_le in E. constructor; [exact H|].
      apply StronglySorted_cons in H. destruct H as [Hm _].
      constructor; [lia|].
      eapply Forall_impl; [exact Hm|]. simpl. intros b Hb. lia.
    + apply Z.leb_gt in E.
      apply StronglySorted_cons in H. destruct H as [Hm Hr].
      constructor; [now apply IH|].
      apply Forall_forall. intros b Hb.
      rewrite insert_sorted_perm in Hb. apply elem_of_cons in Hb.
      destruct Hb as [->|Hb]; [lia|].
      rewrite Forall_forall in Hm. now apply Hm.
Qed.

Lemma sort_list_ascending ax l : ascending ax (sort_list (by_pos ax) l).
Proof.
  induction l as [|n r IH]; simpl; [constructor|].
  now apply insert_sorted_ascending.
Qed.

Lemma insert_sorted_fmap (f : Node -> Node) cmp n l :
  (forall a b, cmp (f a) (f b) = cmp a b) ->
  insert_sorted cmp (f n) (f <$> l) = f <$> insert_sorted cmp n l.
Proof.
  intros Hf. induction l as [|m r IH]; [reflexivity|].
  cbn [insert_sorted fmap list_fmap]. rewrite Hf.
  destruct (cmp n m <=? 0); [reflexivity|].
  cbn [fmap list_fmap]. f_equal. exact IH.
Qed.

Lemma sort_list_fmap (f : Node -> Node) cmp l :
  (forall a b, cmp (f a) (f b) = cmp a b) ->
  sort_list cmp (f <$> l) = f <$> sort_list cmp l.
Proof.
  intros Hf. induction l as [|n r IH]; [reflexivity|].
  cbn [sort_list fmap list_fmap]. fold (fmap f r). rewrite IH.
  now apply insert_sorted_fmap.
Qed.

Lemma all_staged_perm l l' : l ≡ₚ l' -> all_staged l -> all_staged l'.
Proof. unfold all_staged. intros H. now rewrite H. Qed.

Lemma all_staged_frame ax l l' :
  Forall2 (frame ax) l l' -> all_staged l -> all_staged l'.
Proof.
  unfold all_staged. induction 1 as [|a a' l l' [d ->] _ IH]; intros H.
  - constructor.
  - apply Forall_cons in H. destruct H as [Ha Hl].
    constructor; [now apply moved_staged|now apply IH].
Qed.

Lemma scan_list_staged ax padding s :
  all_staged s -> all_staged (scan_list (length s) ax padding s).
Proof.
  intros Hs. pose proof (scan_staged ax padding s Hs) as H.
  apply scan_any in H. destruct H as [_ H].
  eapply all_staged_frame; eauto.
Qed.

Lemma all_staged_stage s : all_staged (stage <$> s).
Proof.
  unfold all_staged. apply Forall_fmap, Forall_forall.
  intros n _. simpl. eauto.
Qed.

Lemma after_x_staged padding s : all_staged s -> all_staged (after_x padding s).
Proof.
  intros Hs. unfold after_x. apply scan_list_staged.
  eapply all_staged_perm; [|exact Hs]. symmetry. apply sort_list_perm.
Qed.

Lemma after_y_staged padding s : all_staged s -> all_staged (after_y padding s).
Proof.
  intros Hs. unfold after_y. apply scan_list_staged.
  eapply all_staged_perm; [symmetry; apply sort_list_perm|].
  now apply after_x_staged.
Qed.

Lemma x_pass_run padding s :
  x_pass padding s = (Ok tt, after_x padding (stage <$> s)).
Proof.
  unfold x_pass.
  rewrite (bind_run _ _ _ _ _ (stage_all_run s)).
  unfold bind at 1. unfold sort at 1. unfold scanX.
  rewrite scan_staged; [reflexivity|].
  eapply all_staged_perm; [symmetry; apply sort_list_perm|].
  apply all_staged_stage.
Qed.

Lemma pfs_staged_run padding s :
  all_staged s ->
  pfs_staged padding s = (Ok tt, committed <$> after_y padding s).
Proof.
  intros Hs. unfold pfs_staged.
  unfold bind at 1. unfold sort at 1. unfold scanX.
  unfold bind at 1. rewrite scan_staged
    by (eapply all_staged_perm; [symmetry; apply sort_list_perm|exact Hs]).
  fold (by_pos AxisX). fold (after_x padding s).
  unfold bind at 1. unfold sort at 1. unfold scanY.
  unfold bind at 1. rewrite scan_staged
    by (eapply all_staged_perm; [symmetry; apply sort_list_perm|];
        now apply after_x_staged).
  fold (by_pos AxisY). fold (after_y padding s).
  rewrite commit_all_run. apply update_list_total.
  intros n Hn. pose proof (after_y_staged padding s Hs) as H.
  unfold all_staged in H. rewrite Forall_forall in H.
  destruct (H n Hn) as [u Hu]. unfold commit, committed. now rewrite Hu.
Qed.

(** [pfs] returns normally and leaves [pfs_nodes]. *)
Lemma pfs_run padding s : pfs padding s = (Ok tt, pfs_nodes padding s).
Proof.
  unfold pfs. rewrite (bind_run _ _ _ _ _ (stage_all_run s)).
  apply pfs_staged_run, all_staged_stage.
Qed.

(** ** Termination *)

(** An iteration that returns moves the cursor forward and keeps the
    length of the array; it never runs out of fuel. *)
Lemma scan_iteration_cursor ax padding i s :
  (i < length s)%nat ->
  match scan_iteration ax padding i s with
  | (Ok i', s') => (i < i')%nat /\ length s' = length s
  | (Throw msg, s') => msg = undefined_up /\ length s' = length s
  | (OutOfFuel, _) => False
  end.
Proof.
  intros Hi. rewrite scan_iteration_run by exact Hi. cbv zeta.
  pose proof (group_end_bounds (same_pos ax) s i Hi) as Hk.
  destruct (update_list _ _) as [o l'] eqn:Hu.
  destruct (update_list_shift _ _ _ _ _ Hu) as [Ho Hf].
  assert (Hlen : length (take (group_end (same_pos ax) s i + 1) s ++ l')
                 = length s).
  { apply Forall2_length in Hf. rewrite length_app, <- Hf, <- length_app.
    now rewrite take_drop. }
  destruct Ho as [-> | ->]; split; auto; lia.
Qed.

Lemma scan_loop_more ax padding :
  forall fuel i s, (length s - 1 - i <= fuel)%nat ->
    forall fuel', (fuel <= fuel')%nat ->
      scan_loop fuel' ax padding i s = scan_loop fuel ax padding i s.
Proof.
  induction fuel as [|fuel IH]; intros i s Hfuel fuel' Hle.
  - destruct fuel'; [reflexivity|].
    cbn [scan_loop]. unfold bind at 1 3. unfold nodes_length at 1 2.
    now replace (i <? length s - 1)%nat with false
      by (symmetry; apply Nat.ltb_ge; lia).
  - destruct fuel' as [|fuel']; [lia|].
    cbn [scan_loop]. unfold bind at 1 3. unfold nodes_length at 1 2.
    destruct (i <? length s - 1)%nat eqn:Hlt; [|reflexivity].
    apply Nat.ltb_lt in Hlt. unfold bind.
    pose proof (scan_iteration_cursor ax padding i s ltac:(lia)) as Hc.
    destruct (scan_iteration ax padding i s) as [[i'|msg|] s1];
      [|reflexivity|reflexivity].
    destruct Hc as [Hi' Hlen]. apply IH; lia.
Qed.

(** C10: [same] returns an index between the cursor and the last index,
    so every iteration of a scan that returns moves the cursor forward;
    a scan makes at most [nodes.length] iterations (more fuel than that
    changes nothing and the fuel is never used up), and [pfs] returns on
    every array. *)
Theorem pfs_terminates :
  (forall callback s i, (i < length s - 1)%nat ->
     exists k, same i callback s = (Ok k, s) /\
               (i <= k <= length s - 1)%nat) /\
  (forall ax padding s i, (i < length s - 1)%nat ->
     match fst (scan_iteration ax padding i s) with
     | Ok i' => (i < i')%nat
     | Throw _ => True
     | OutOfFuel => False
     end) /\
  (forall ax padding s fuel, (length s <= fuel)%nat ->
     scan_loop fuel ax padding 0 s = scan ax padding s) /\
  (forall padding s,
     fst (scanX padding s) <> OutOfFuel /\
     fst (scanY padding s) <> OutOfFuel) /\
  (forall padding s, exists s', pfs padding s = (Ok tt, s')).
Proof.
  split; [|split; [|split; [|split]]].
  - intros callback s i Hi. exists (group_end callback s i). split.
    + apply same_run. lia.
    + apply group_end_bounds. lia.
  - intros ax padding s i Hi.
    pose proof (scan_iteration_cursor ax padding i s ltac:(lia)) as H.
    destruct (scan_iteration ax padding i s) as [[i'|msg|] s']; simpl;
      [now destruct H|exact I|exact H].
  - intros ax padding s fuel Hfuel. unfold scan.
    rewrite (bind_run _ _ s (length s) s) by reflexivity.
    apply scan_loop_more; lia.
  - intros padding s. unfold scanX, scanY.
    split; [destruct (scan AxisX padding s) as [o s'] eqn:H
           |destruct (scan AxisY padding s) as [o s'] eqn:H];
      apply scan_any in H; destruct H as [[-> | ->] _]; simpl; discriminate.
  - intros padding s. exists (pfs_nodes padding s). apply pfs_run.
Qed.

(** ** The frame of a scan *)

(** C9: a scan on X changes only the x coordinate of staged positions
    and a scan on Y only their y coordinate: at every index the node
    keeps its identity, its current position and its extent, a staged
    position stays present or absent, and its other coordinate is
    unchanged; the array keeps its length.  This holds for every run,
    also one that ends in a throw. *)
Theorem scan_frame padding s j n :
  s !! j = Some n ->
  (forall n', snd (scanX padding s) !! j = Some n' ->
     index n' = index n /\ x n' = x n /\ y n' = y n /\
     width n' = width n /\ height n' = height n /\
     py <$> up n' = py <$> up n) /\
  (forall n', snd (scanY padding s) !! j = Some n' ->
     index n' = index n /\ x n' = x n /\ y n' = y n /\
     width n' = width n /\ height n' = height n /\
     px <$> up n' = px <$> up n) /\
  length (snd (scanX padding s)) = length s /\
  length (snd (scanY padding s)) = length s.
Proof.
  intros Hn. unfold scanX, scanY.
  destruct (scan AxisX padding s) as [ox sx] eqn:Hx.
  destruct (scan AxisY padding s) as [oy sy] eqn:Hy.
  apply scan_any in Hx. destruct Hx as [_ Hx].
  apply scan_any in Hy. destruct Hy as [_ Hy]. simpl.
  split; [|split; [|split]].
  - intros n' Hn'.
    destruct (Forall2_lookup_lr _ _ _ _ _ _ Hx Hn Hn') as [d ->].
    unfold moved. destruct (up n) as [[ux uy]|] eqn:E; simpl; rewrite ?E;
      repeat split; reflexivity.
  - intros n' Hn'.
    destruct (Forall2_lookup_lr _ _ _ _ _ _ Hy Hn Hn') as [d ->].
    unfold moved. destruct (up n) as [[ux uy]|] eqn:E; simpl; rewrite ?E;
      repeat split; reflexivity.
  - symmetry. eapply Forall2_length; eauto.
  - symmetry. eapply Forall2_length; eauto.
Qed.

(** ** Missing staged positions *)

Lemma update_list_throws (h : Node -> option Node) l n :
  n ∈ l -> h n = None -> fst (update_list h l) = Throw undefined_up.
Proof.
  induction l as [|m r IH]; intros Hn Hh; [now apply elem_of_nil in Hn|].
  simpl. destruct (h m) as [m'|] eqn:Hm; [|reflexivity].
  apply elem_of_cons in Hn. destruct Hn as [->|Hn]; [congruence|].
  specialize (IH Hn Hh). now destruct (update_list h r).
Qed.

Lemma frame_missing ax l l' n :
  Forall2 (frame ax) l l' -> n ∈ l -> up n = None -> n ∈ l'.
Proof.
  intros Hf Hn Hup. apply list_elem_of_lookup in Hn. destruct Hn as [j Hj].
  destruct (Forall2_lookup_l _ _ _ _ _ Hf Hj) as [n' [Hj' [d ->]]].
  unfold moved in Hj'. rewrite Hup in Hj'.
  eapply list_elem_of_lookup_2; eauto.
Qed.

(** C8: a staged position that is absent where it is used ends the call
    with the throw of the source: the push step throws when a node beyond
    the group has none, the commit throws when any node has none, and
    [pfs] from its first sort on throws when any node of the array has
    none; no such run returns normally. *)
Theorem missing_staged_position_throws :
  (forall ax k maxDelta s j n, (k < j)%nat -> s !! j = Some n ->
     up n = None -> fst (push ax k maxDelta s) = Throw undefined_up) /\
  (forall s n, n ∈ s -> up n = None ->
     fst (commit_all s) = Throw undefined_up) /\
  (forall padding s n, n ∈ s -> up n = None ->
     fst (pfs_staged padding s) = Throw undefined_up).
Proof.
  split; [|split].
  - intros ax k d s j n Hkj Hj Hup. rewrite push_run.
    assert (Hn : n ∈ drop (k + 1) s).
    { apply list_elem_of_lookup. exists (j - (k + 1))%nat.
      rewrite lookup_drop. now replace (k + 1 + (j - (k + 1)))%nat with j by lia. }
    pose proof (update_list_throws (shift ax d) _ n Hn) as H.
    destruct (update_list (shift ax d) (drop (k + 1) s)). simpl in *.
    apply H. unfold shift. now rewrite Hup.
  - intros s n Hn Hup. rewrite commit_all_run.
    apply (update_list_throws commit _ n Hn). unfold commit. now rewrite Hup.
  - intros padding s n Hn Hup. unfold pfs_staged.
    unfold bind at 1. unfold sort at 1. unfold bind at 1. unfold scanX.
    assert (H1 : n ∈ sort_list (fun a b => x a - x b) s)
      by now apply sort_list_elem.
    destruct (scan AxisX padding _) as [o1 s2] eqn:Hx.
    apply scan_any in Hx. destruct Hx as [[-> | ->] Hf1]; [|reflexivity].
    pose proof (frame_missing _ _ _ _ Hf1 H1 Hup) as H2.
    unfold bind at 1. unfold sort at 1. unfold bind at 1. unfold scanY.
    assert (H3 : n ∈ sort_list (fun a b => y a - y b) s2)
      by now apply sort_list_elem.
    destruct (scan AxisY padding _) as [o2 s4] eqn:Hy.
    apply scan_any in Hy. destruct Hy as [[-> | ->] Hf2]; [|reflexivity].
    pose proof (frame_missing _ _ _ _ Hf2 H3 Hup) as H4.
    rewrite commit_all_run.
    apply (update_list_throws commit _ n H4). unfold commit. now rewrite Hup.
Qed.

(** ** The push step and the choice of [maxDelta] *)


Lemma keep_max_cases acc m :
  (Z.abs acc < Z.abs m /\ keep_max acc m = m) \/
  (Z.abs m <= Z.abs acc /\ keep_max acc m = acc).
Proof.
  unfold keep_max. destruct (Z.abs m >? Z.abs acc) eqn:E.
  - apply Z.gtb_lt in E. now left.
  - rewrite Z.gtb_ltb in E. apply Z.ltb_ge in E. now right.
Qed.

Lemma fold_keep_max_first l :
  forall acc,
    (fold_left keep_max l acc = acc /\
     Forall (fun m => Z.abs m <= Z.abs acc) l) \/
    (Z.abs acc < Z.abs (fold_left keep_max l acc) /\
     exists l1 l2, l = l1 ++ fold_left keep_max l acc :: l2 /\
       Forall (fun m => Z.abs m < Z.abs (fold_left keep_max l acc)) l1 /\
       Forall (fun m => Z.abs m <= Z.abs (fold_left keep_max l acc)) l2).
Proof.
  induction l as [|m l IH]; intros acc; cbn [fold_left].
  - left. split; [reflexivity|constructor].
  - destruct (keep_max_cases acc m) as [[E ->]|[E ->]].
    + right.
      destruct (IH m) as [[Hr Hall]|[Hlt [l1 [l2 [Hl [H1 H2]]]]]].
      * rewrite Hr. split; [lia|]. exists [], l. now repeat split.
      * split; [lia|]. exists (m :: l1), l2. rewrite Hl at 1.
        split; [reflexivity|]. split; [constructor; [lia|exact H1]|exact H2].
    + destruct (IH acc) as [[Hr Hall]|[Hlt [l1 [l2 [Hl [H1 H2]]]]]].
      * left. split; [exact Hr|]. constructor; [lia|exact Hall].
      * right. split; [exact Hlt|]. exists (m :: l1), l2. rewrite Hl at 1.
        split; [reflexivity|]. split; [constructor; [lia|exact H1]|exact H2].
Qed.

(** The moves are the deltas, on the scanned axis, of the pairs of a node
    of the group [i..k] and a node beyond [k]. *)
Lemma moves_pairs ax padding s i k move :
  move ∈ moves ax padding s i k <->
  exists m j a b, (i <= m <= k)%nat /\ (k < j)%nat /\
    s !! m = Some a /\ s !! j = Some b /\
    move = coord ax (delta a b padding).
Proof.
  unfold moves. rewrite list_elem_of_In, in_flat_map. split.
  - intros [a [Ha Hm]]. apply in_map_iff in Hm. destruct Hm as [b [<- Hb]].
    apply list_elem_of_In, elem_of_take in Ha. destruct Ha as [t [Ht Hlt]].
    rewrite lookup_drop in Ht.
    apply list_elem_of_In, list_elem_of_lookup in Hb. destruct Hb as [u Hu].
    rewrite lookup_drop in Hu.
    exists (i + t)%nat, (k + 1 + u)%nat, a, b.
    repeat split; auto; lia.
  - intros [m [j [a [b [Hm [Hj [Ha [Hb ->]]]]]]]]. exists a. split.
    + apply list_elem_of_In, elem_of_take. exists (m - i)%nat. split; [|lia].
      rewrite lookup_drop. now replace (i + (m - i))%nat with m by lia.
    + apply in_map_iff. exists b. split; [reflexivity|].
      apply list_elem_of_In, list_elem_of_lookup. exists (j - (k + 1))%nat.
      rewrite lookup_drop.
      now replace (k + 1 + (j - (k + 1)))%nat with j by lia.
Qed.

(** C5: the value [maxDelta] that the nested loops return for a group,
    which the push step then applies, is one of the moves of the pairs of
    a group member and a node beyond the group: every move before it in
    the order of the loops is strictly smaller in absolute value and
    every move after it is no greater, so it is the first move of
    greatest absolute value (not a sum or an average).  With no such
    pair it is 0. *)
Theorem max_delta_first_greatest ax padding s i k :
  exists maxDelta,
    max_delta ax padding i k s = (Ok maxDelta, s) /\
    (forall move, move ∈ moves ax padding s i k <->
       exists m j a b, (i <= m <= k)%nat /\ (k < j)%nat /\
         s !! m = Some a /\ s !! j = Some b /\
         move = coord ax (delta a b padding)) /\
    (moves ax padding s i k = [] -> maxDelta = 0) /\
    (moves ax padding s i k <> [] ->
     exists before after,
       moves ax padding s i k = before ++ maxDelta :: after /\
       Forall (fun move => Z.abs move < Z.abs maxDelta) before /\
       Forall (fun move => Z.abs move <= Z.abs maxDelta) after).
Proof.
  exists (max_abs (moves ax padding s i k)).
  split; [apply max_delta_run|].
  split; [intros move; apply moves_pairs|].
  split; [intros ->; reflexivity|].
  intros Hne. unfold max_abs.
  destruct (fold_keep_max_first (moves ax padding s i k) 0)
    as [[Hr Hall]|[_ H]]; [|exact H].
  rewrite Hr. destruct (moves ax padding s i k) as [|m l]; [congruence|].
  apply Forall_cons in Hall. destruct Hall as [Hm Hl].
  exists [], l. assert (m = 0) as -> by lia.
  split; [reflexivity|]. split; [constructor|exact Hl].
Qed.

(** ** Arrays on which the scans find nothing to push *)

Lemma max_abs_zero l : Forall (fun m => m = 0) l -> max_abs l = 0.
Proof.
  unfold max_abs. induction 1 as [|m l -> _ IH]; [reflexivity|exact IH].
Qed.

Lemma fmap_moved_0 ax (l : list Node) : moved ax 0 <$> l = l.
Proof.
  induction l as [|n r IH]; [reflexivity|].
  cbn [fmap list_fmap]. rewrite moved_0. f_equal. exact IH.
Qed.

Lemma scan_list_quiet ax padding :
  forall fuel l, ascending ax l ->
    (forall a b, a ∈ l -> b ∈ l -> pos ax a < pos ax b ->
       coord ax (delta a b padding) = 0) ->
    scan_list fuel ax padding l = l.
Proof.
  induction fuel as [|fuel IH]; intros l Hasc Hq; [reflexivity|].
  destruct l as [|n0 r]; [reflexivity|]. cbn [scan_list].
  destruct (group_split ax n0 r Hasc) as [Hgrp Hbey].
  set (g := prefix_len (same_pos ax n0) r) in *.
  assert (Hsub : forall b, b ∈ drop g r -> b ∈ n0 :: r).
  { intros b Hb. apply elem_of_cons. right. now apply (subseteq_drop g r). }
  rewrite max_abs_zero.
  - rewrite fmap_moved_0, IH.
    + now rewrite take_drop.
    + unfold ascending in *. apply StronglySorted_cons in Hasc.
      destruct Hasc as [_ Hr]. rewrite <- (take_drop g r) in Hr.
      now apply StronglySorted_app_1_r in Hr.
    + intros a b Ha Hb. apply Hq; now apply Hsub.
  - apply Forall_forall. intros m Hm. apply moves_inv in Hm.
    destruct Hm as [a [b [Ha [Hb ->]]]]. apply Hq.
    + apply elem_of_cons in Ha. destruct Ha as [->|Ha]; [now left|].
      apply elem_of_cons. right. now apply (subseteq_take g r).
    + now apply Hsub.
    + rewrite Forall_forall in Hbey. specialize (Hbey b Hb).
      apply elem_of_cons in Ha. destruct Ha as [->|Ha]; [exact Hbey|].
      rewrite Forall_forall in Hgrp. rewrite (Hgrp a Ha). exact Hbey.
Qed.

Lemma delta_without_overlap a b padding :
  overlap a b padding = false -> delta a b padding = mkPoint 0 0.
Proof. intros H. unfold delta. now rewrite H. Qed.

(** When no two nodes that differ in a coordinate overlap, [pfs] only
    sorts the array and clears the staged positions. *)
Lemma pfs_nodes_quiet padding s :
  staged_blind ->
  (forall a b, a ∈ s -> b ∈ s -> x a <> x b \/ y a <> y b ->
     overlap a b padding = false) ->
  pfs_nodes padding s =
  (fun n => set_up n None) <$>
    sort_list (by_pos AxisY) (sort_list (by_pos AxisX) s).
Proof.
  intros Hblind Hq.
  assert (Hstage : forall ax (l : list Node), (forall n, n ∈ l -> n ∈ s) ->
            forall a b, a ∈ stage <$> l -> b ∈ stage <$> l ->
              pos ax a < pos ax b -> coord ax (delta a b padding) = 0).
  { intros ax l Hl a b Ha Hb Hlt.
    apply list_elem_of_fmap in Ha. destruct Ha as [a0 [-> Ha]].
    apply list_elem_of_fmap in Hb. destruct Hb as [b0 [-> Hb]].
    rewrite delta_without_overlap; [now destruct ax|].
    unfold stage. destruct (Hblind a0 b0 (Some (mkPoint (x a0) (y a0)))
      (Some (mkPoint (x b0) (y b0))) padding) as [-> _].
    apply Hq; auto. destruct ax; simpl in Hlt; [left|right]; lia. }
  unfold pfs_nodes, after_y, after_x.
  rewrite (sort_list_fmap stage) by reflexivity.
  rewrite (scan_list_quiet AxisX padding _
             (stage <$> sort_list (by_pos AxisX) s)).
  2:{ rewrite <- (sort_list_fmap stage) by reflexivity.
      apply sort_list_ascending. }
  2:{ apply Hstage. intros n Hn. now apply sort_list_elem in Hn. }
  rewrite (sort_list_fmap stage) by reflexivity.
  rewrite scan_list_quiet.
  2:{ rewrite <- (sort_list_fmap stage) by reflexivity.
      apply sort_list_ascending. }
  2:{ apply Hstage. intros n Hn. now do 2 apply sort_list_elem in Hn. }
  rewrite <- list_fmap_compose. reflexivity.
Qed.

(** C6: when no two distinct nodes of the input overlap under the
    padding, [pfs] returns normally and every node of the array is a
    node of the input with its position and its other fields as they
    were and no staged position left (the array is in the order of the
    two sorts).  On the empty array and on an array of one node [pfs]
    returns normally with the same array, the staged position cleared. *)
Theorem pfs_identity_without_overlap :
  (forall padding s, staged_blind ->
     (forall a b, a ∈ s -> b ∈ s -> a <> b -> overlap a b padding = false) ->
     pfs padding s =
     (Ok tt, (fun n => set_up n None) <$>
               sort_list (by_pos AxisY) (sort_list (by_pos AxisX) s))) /\
  (forall padding, pfs padding [] = (Ok tt, [])) /\
  (forall padding n, pfs padding [n] = (Ok tt, [set_up n None])).
Proof.
  split; [|split].
  - intros padding s Hblind Hq. rewrite pfs_run. f_equal.
    apply pfs_nodes_quiet; [exact Hblind|].
    intros a b Ha Hb Hne. apply Hq; auto. intros ->. destruct Hne; congruence.
  - intros padding. now rewrite pfs_run.
  - intros padding n. now rewrite pfs_run.
Qed.

(** ** A node through [pfs] *)

Lemma frame_offset ax a a' :
  is_Some (up a) -> frame ax a a' -> a' = moved ax (offset ax a a') a.
Proof.
  intros Ha [d ->]. unfold offset. rewrite staged_coord_moved by exact Ha.
  f_equal. lia.
Qed.

Lemma scan_list_frame ax padding l :
  all_staged l -> Forall2 (frame ax) l (scan_list (length l) ax padding l).
Proof.
  intros Hl. pose proof (scan_staged ax padding l Hl) as H.
  apply scan_any in H. now destruct H.
Qed.

Lemma sorted_stage_staged ax s : all_staged (sort_list (by_pos ax) (stage <$> s)).
Proof.
  eapply all_staged_perm; [symmetry; apply sort_list_perm|].
  apply all_staged_stage.
Qed.

Lemma sorted_after_x_staged padding s :
  all_staged (sort_list (by_pos AxisY) (after_x padding (stage <$> s))).
Proof.
  eapply all_staged_perm; [symmetry; apply sort_list_perm|].
  apply after_x_staged, all_staged_stage.
Qed.

Lemma at_same_index_from_r l l' a' :
  length l = length l' -> a' ∈ l' -> exists a, at_same_index l l' a a'.
Proof.
  intros Hlen Ha'. apply list_elem_of_lookup in Ha'. destruct Ha' as [j Hj].
  destruct (lookup_lt_is_Some_2 l j) as [a Ha].
  { rewrite Hlen. eapply lookup_lt_Some; eauto. }
  exists a, j. now split.
Qed.

(** Every node of the result comes from a node of the input. *)
Lemma traced_exists padding s a' :
  a' ∈ pfs_nodes padding s -> exists a, traced padding s a a'.
Proof.
  intros Ha'. unfold pfs_nodes in Ha'.
  apply list_elem_of_fmap in Ha'. destruct Ha' as [a2 [-> Ha2]].
  destruct (at_same_index_from_r
    (sort_list (by_pos AxisY) (after_x padding (stage <$> s)))
    (after_y padding (stage <$> s)) a2) as [a1 H2]; [|exact Ha2|].
  { unfold after_y.
    eapply Forall2_length, scan_list_frame, sorted_after_x_staged. }
  pose proof (at_same_index_elem _ _ _ _ H2) as [Ha1 _].
  apply sort_list_elem in Ha1.
  destruct (at_same_index_from_r
    (sort_list (by_pos AxisX) (stage <$> s))
    (after_x padding (stage <$> s)) a1) as [a0 H1]; [|exact Ha1|].
  { unfold after_x.
    eapply Forall2_length, scan_list_frame, sorted_stage_staged. }
  pose proof (at_same_index_elem _ _ _ _ H1) as [Ha0 _].
  apply sort_list_elem in Ha0. apply list_elem_of_fmap in Ha0.
  destruct Ha0 as [a [-> Ha]].
  exists a, a1, a2. now repeat split.
Qed.

(** The result node is the input node placed at its position plus the
    offsets of the two scans. *)
Lemma trace_shape padding s a a1 a2 :
  at_same_index (sort_list (by_pos AxisX) (stage <$> s))
    (after_x padding (stage <$> s)) (stage a) a1 ->
  at_same_index (sort_list (by_pos AxisY) (after_x padding (stage <$> s)))
    (after_y padding (stage <$> s)) a1 a2 ->
  a1 = moved AxisX (offset AxisX (stage a) a1) (stage a) /\
  a2 = moved AxisY (offset AxisY a1 a2) a1 /\
  committed a2 =
    place a (mkPoint (x a + offset AxisX (stage a) a1)
                     (y a + offset AxisY a1 a2)).
Proof.
  intros [j1 [H1 H1']] [j2 [H2 H2']].
  assert (F1 : frame AxisX (stage a) a1).
  { eapply Forall2_lookup_lr; [|exact H1|exact H1'].
    apply scan_list_frame, sorted_stage_staged. }
  assert (F2 : frame AxisY a1 a2).
  { eapply Forall2_lookup_lr; [|exact H2|exact H2'].
    apply scan_list_frame, sorted_after_x_staged. }
  assert (S0 : is_Some (up (stage a))) by (simpl; eauto).
  pose proof (frame_offset _ _ _ S0 F1) as E1.
  assert (S1 : is_Some (up a1)) by (rewrite E1; now apply moved_staged).
  pose proof (frame_offset _ _ _ S1 F2) as E2.
  split; [exact E1|]. split; [exact E2|].
  set (ox := offset AxisX (stage a) a1) in *.
  set (oy := offset AxisY a1 a2) in *.
  rewrite E2, E1. reflexivity.
Qed.

Lemma set_up_eta n : set_up n (up n) = n.
Proof. now destruct n. Qed.

Lemma moved_as_set_up ax d n : moved ax d n = set_up n (up (moved ax d n)).
Proof.
  unfold moved. destruct (up n) eqn:E; [reflexivity|].
  symmetry. apply set_up_eta.
Qed.

Lemma blind_moved (w : Node -> Node -> Z) ax ax' d e a b :
  (forall a b u v, w (set_up a u) (set_up b v) = w a b) ->
  w (moved ax d a) (moved ax' e b) = w a b.
Proof.
  intros Hw. rewrite (moved_as_set_up ax d a), (moved_as_set_up ax' e b).
  apply Hw.
Qed.

(** Two nodes through [pfs]: along each axis the one beyond the other
    gains at least [w] on it, and nodes that share a coordinate keep
    sharing it. *)
Lemma pfs_nodes_apart padding (w : axis -> Node -> Node -> Z) :
  direction_consistent padding ->
  (forall ax a b u v, w ax (set_up a u) (set_up b v) = w ax a b) ->
  (forall ax a b, pos ax a < pos ax b ->
     w ax a b <= coord ax (delta a b padding)) ->
  forall s a a' b b', traced padding s a a' -> traced padding s b b' ->
    a' = place a (mkPoint (x a') (y a')) /\
    forall ax,
      (pos ax a < pos ax b ->
         w ax a b <= (pos ax b' - pos ax a') - (pos ax b - pos ax a)) /\
      (pos ax a = pos ax b -> pos ax a' = pos ax b').
Proof.
  intros Hdir Hw1 Hw2 s a a' b b'
    [a1 [a2 [Ha [Ha1 [Ha2 ->]]]]] [b1 [b2 [Hb [Hb1 [Hb2 ->]]]]].
  destruct (trace_shape _ _ _ _ _ Ha1 Ha2) as [Ea1 [Ea2 Ea]].
  destruct (trace_shape _ _ _ _ _ Hb1 Hb2) as [Eb1 [Eb2 Eb]].
  destruct (scan_list_apart AxisX padding (w AxisX) Hdir
    (fun a b d e => blind_moved (w AxisX) AxisX AxisX d e a b (Hw1 AxisX))
    (Hw2 AxisX) _ (sort_list (by_pos AxisX) (stage <$> s)) (Nat.le_refl _)
    (sort_list_ascending _ _) (sorted_stage_staged _ _)) as [_ [_ HX]].
  destruct (scan_list_apart AxisY padding (w AxisY) Hdir
    (fun a b d e => blind_moved (w AxisY) AxisY AxisY d e a b (Hw1 AxisY))
    (Hw2 AxisY) _
    (sort_list (by_pos AxisY) (after_x padding (stage <$> s)))
    (Nat.le_refl _) (sort_list_ascending _ _)
    (sorted_after_x_staged _ _)) as [_ [_ HY]].
  destruct (HX _ _ _ _ Ha1 Hb1) as [HX1 HX2].
  destruct (HY _ _ _ _ Ha2 Hb2) as [HY1 HY2].
  assert (Pa : pos AxisY a1 = y a) by now rewrite Ea1, pos_moved.
  assert (Pb : pos AxisY b1 = y b) by now rewrite Eb1, pos_moved.
  assert (Wy : w AxisY a1 b1 = w AxisY a b).
  { rewrite Ea1, Eb1. rewrite blind_moved by apply Hw1. apply Hw1. }
  assert (Wx : w AxisX (stage a) (stage b) = w AxisX a b) by apply Hw1.
  rewrite Pa, Pb, Wy in HY1. rewrite Pa, Pb in HY2. rewrite Wx in HX1.
  rewrite Ea, Eb. split; [reflexivity|].
  intros [|]; simpl in *; split; intros H.
  - specialize (HX1 H). lia.
  - specialize (HX2 H). lia.
  - specialize (HY1 H). lia.
  - specialize (HY2 H). lia.
Qed.

Lemma NoDup_index_eq (s : list Node) a b :
  NoDup (index <$> s) -> a ∈ s -> b ∈ s -> index a = index b -> a = b.
Proof.
  induction s as [|n r IH]; intros Hnd Ha Hb Hi;
    [now apply elem_of_nil in Ha|].
  cbn [fmap list_fmap] in Hnd. apply NoDup_cons in Hnd.
  destruct Hnd as [Hn Hr].
  apply elem_of_cons in Ha. apply elem_of_cons in Hb.
  destruct Ha as [->|Ha], Hb as [->|Hb]; auto.
  - exfalso. apply Hn. rewrite Hi. now apply list_elem_of_fmap_2.
  - exfalso. apply Hn. rewrite <- Hi. now apply list_elem_of_fmap_2.
Qed.

Lemma traced_index padding s a a' : traced padding s a a' -> index a' = index a.
Proof.
  intros [a1 [a2 [Ha [H1 [H2 ->]]]]].
  destruct (trace_shape _ _ _ _ _ H1 H2) as [_ [_ ->]]. reflexivity.
Qed.

(** With distinct identities, the node of the result that carries the
    identity of [a] is the one [a] goes to. *)
Lemma traced_of_index padding s a a' :
  NoDup (index <$> s) -> a ∈ s -> a' ∈ pfs_nodes padding s ->
  index a' = index a -> traced padding s a a'.
Proof.
  intros Hnd Ha Ha' Hi.
  destruct (traced_exists _ _ _ Ha') as [a0 Ht].
  pose proof (traced_index _ _ _ _ Ht) as Hi0.
  assert (a0 = a) as <-; [|exact Ht].
  apply (NoDup_index_eq s); auto.
  - now destruct Ht as [? [? [? _]]].
  - congruence.
Qed.

(** ** Order, residual overlap and a second run *)

(** C2: with deltas that point in the direction of the scan, [pfs] never
    inverts the order of two nodes along an axis: a node that lay
    strictly before another on x does not lie after it on x in the
    result, and likewise on y. *)
Theorem pfs_preserves_order padding s a b a' b' :
  direction_consistent padding ->
  NoDup (index <$> s) ->
  a ∈ s -> b ∈ s ->
  a' ∈ snd (pfs padding s) -> b' ∈ snd (pfs padding s) ->
  index a' = index a -> index b' = index b ->
  (x a < x b -> x a' <= x b') /\ (y a < y b -> y a' <= y b').
Proof.
  intros Hdir Hnd Ha Hb Ha' Hb' Hia Hib. rewrite pfs_run in Ha', Hb'.
  simpl in Ha', Hb'.
  pose proof (traced_of_index _ _ _ _ Hnd Ha Ha' Hia) as Ta.
  pose proof (traced_of_index _ _ _ _ Hnd Hb Hb' Hib) as Tb.
  destruct (pfs_nodes_apart padding (fun _ _ _ => 0) Hdir
    (fun _ _ _ _ _ => eq_refl) (fun ax a b H => Hdir ax a b H)
    s a a' b b' Ta Tb) as [_ H].
  split; intros Hlt.
  - destruct (H AxisX) as [H1 _]. simpl in H1. specialize (H1 Hlt). lia.
  - destruct (H AxisY) as [H1 _]. simpl in H1. specialize (H1 Hlt). lia.
Qed.

Lemma fmap_clear_up (l : list Node) :
  Forall (fun n => up n = None) l -> (fun n => set_up n None) <$> l = l.
Proof.
  induction 1 as [|n r Hn _ IH]; [reflexivity|].
  cbn [fmap list_fmap]. rewrite <- Hn at 1. rewrite set_up_eta.
  f_equal. exact IH.
Qed.



(** C7, as the code has it: given primitives that do not read the staged
    position, when no two distinct nodes of the result of a first run of
    [pfs] overlap under the padding, a second run with the same padding
    returns normally and leaves every node as the first run left it; it
    only sorts the array again.  When overlap is left after the first
    run, the second run can move nodes. *)
Theorem pfs_second_run_without_overlap padding s :
  staged_blind ->
  (forall a b,
     a ∈ snd (pfs padding s) -> b ∈ snd (pfs padding s) -> a <> b ->
     overlap a b padding = false) ->
  pfs padding (snd (pfs padding s)) =
  (Ok tt, sort_list (by_pos AxisY)
            (sort_list (by_pos AxisX) (snd (pfs padding s)))).
Proof.
  intros Hblind Hq. rewrite (pfs_run padding s) in *. simpl in *.
  rewrite pfs_run. f_equal.
  rewrite pfs_nodes_quiet; [|exact Hblind|].
  - apply fmap_clear_up. apply Forall_forall. intros n Hn.
    do 2 apply sort_list_elem in Hn.
    destruct (traced_exists _ _ _ Hn) as [a [a1 [a2 [_ [H1 [H2 ->]]]]]].
    destruct (trace_shape _ _ _ _ _ H1 H2) as [_ [_ ->]]. reflexivity.
  - intros a b Ha Hb Hd. apply Hq; auto. intros ->. destruct Hd; congruence.
Qed.

(** ** A tie group of three nodes and a fourth node beyond it *)

(** C4, as the code has it: for three nodes that share their x
    coordinate and a fourth node at a strictly greater x, the X pass
    leaves the staged x of the three group nodes at their x (they are the
    frame of reference and none of them moves) and adds [maxDelta] to the
    staged x of the fourth node, where [maxDelta] is the first of the
    three moves of greatest absolute value. *)
Theorem tie_group_x_pass padding a b c d :
  x a = x b -> x b = x c -> x c < x d ->
  let maxDelta :=
    max_abs [px (delta (stage a) (stage d) padding);
             px (delta (stage b) (stage d) padding);
             px (delta (stage c) (stage d) padding)] in
  x_pass padding [a; b; c; d] =
  (Ok tt, [stage a; stage b; stage c;
           set_up d (Some (mkPoint (x d + maxDelta) (y d)))]) /\
  max_delta AxisX padding 0 2 [stage a; stage b; stage c; stage d] =
  (Ok maxDelta, [stage a; stage b; stage c; stage d]).
Proof.
  intros Hab Hbc Hcd maxDelta. split; [|apply max_delta_run].
  rewrite x_pass_run. unfold after_x.
  assert (Hsort : sort_list (by_pos AxisX) (stage <$> [a; b; c; d]) =
                  [stage a; stage b; stage c; stage d]).
  { cbn [fmap list_fmap sort_list insert_sorted]. unfold by_pos. simpl.
    replace (x c - x d <=? 0) with true by (symmetry; apply Z.leb_le; lia).
    simpl.
    replace (x b - x c <=? 0) with true by (symmetry; apply Z.leb_le; lia).
    simpl.
    replace (x a - x b <=? 0) with true by (symmetry; apply Z.leb_le; lia).
    reflexivity. }
  rewrite Hsort. cbn [length scan_list prefix_len].
  unfold same_pos. simpl.
  replace (x a =? x b) with true by (symmetry; apply Z.eqb_eq; lia).
  replace (x a =? x c) with true by (symmetry; apply Z.eqb_eq; lia).
  replace (x a =? x d) with false by (symmetry; apply Z.eqb_neq; lia).
  reflexivity.
Qed.

(** ** Further properties of [same] *)

(** X1: [same] returns the end of the maximal run that starts at [index]:
    every node after [index] up to the returned [k] satisfies the
    callback with the node at [index], the node after [k], when there is
    one, does not, and the array is left as it is. *)
Theorem same_maximal_run callback s i n0 :
  s !! i = Some n0 ->
  exists k,
    same i callback s = (Ok k, s) /\
    (i <= k < length s)%nat /\
    (forall j n, (i < j <= k)%nat -> s !! j = Some n ->
       callback n0 n = true) /\
    (forall n, s !! (k + 1)%nat = Some n -> callback n0 n = false).
Proof.
  intros Hi. pose proof (lookup_lt_Some _ _ _ Hi) as Hlt.
  exists (group_end callback s i).
  split; [now apply same_run|].
  pose proof (group_end_bounds callback s i Hlt) as Hb.
  split; [lia|].
  unfold group_end in *. rewrite Hi in *. split.
  - intros j n Hj Hn.
    apply (prefix_len_inside (callback n0) (drop (S i) s) (j - S i)); [lia|].
    rewrite lookup_drop. now replace (S i + (j - S i))%nat with j by lia.
  - intros n Hn. apply (prefix_len_stop (callback n0) (drop (S i) s)).
    rewrite lookup_drop. rewrite <- Hn. f_equal. lia.
Qed.

(** X2: [same] returns normally for every index, also one beyond the array,
    with an index that is not below the one given; from the last index
    on it returns the index it was given, without a read. *)
Theorem same_never_throws callback s i :
  exists k,
    same i callback s = (Ok k, s) /\ (i <= k)%nat /\
    ((length s - 1 <= i)%nat -> k = i).
Proof.
  destruct (decide (i < length s - 1)%nat) as [Hlt|Hge].
  - exists (group_end callback s i). split; [apply same_run; lia|].
    pose proof (group_end_bounds callback s i ltac:(lia)). split; lia.
  - exists i. split; [|split; [lia|reflexivity]].
    unfold same. rewrite (bind_run _ _ s (length s) s) by reflexivity.
    destruct (length s) as [|fuel] eqn:E; cbn [same_loop];
      unfold bind, nodes_length; rewrite E;
      now replace (i <? _ - 1)%nat with false
        by (symmetry; apply Nat.ltb_ge; lia).
Qed.

(** ** Scans that have nothing to push *)

Lemma prefix_len_all P l :
  Forall (fun n => P n = true) l -> prefix_len P l = length l.
Proof.
  induction 1 as [|n r Hn _ IH]; [reflexivity|].
  simpl. rewrite Hn. now f_equal.
Qed.

(** X3: on an array whose nodes all share the coordinate of the scanned axis
    a scan returns normally and changes nothing, also when staged
    positions are missing: the one group reaches the end of the array,
    so no delta is computed and the push loop does not run. *)
Theorem scan_single_group ax padding s :
  (forall a b, a ∈ s -> b ∈ s -> pos ax a = pos ax b) ->
  scan ax padding s = (Ok tt, s).
Proof.
  intros Heq. unfold scan.
  rewrite (bind_run _ _ s (length s) s) by reflexivity.
  destruct (length s) as [|fuel] eqn:E.
  { cbn [scan_loop]. unfold bind, nodes_length. now rewrite E. }
  cbn [scan_loop]. unfold bind at 1. unfold nodes_length at 1. rewrite E.
  destruct (0 <? S fuel - 1)%nat eqn:Hlt; [|reflexivity].
  apply Nat.ltb_lt in Hlt.
  destruct (lookup_lt_is_Some_2 s 0) as [n0 Hn0]; [lia|].
  assert (Hk : group_end (same_pos ax) s 0 = (length s - 1)%nat).
  { unfold group_end. rewrite Hn0. rewrite prefix_len_all.
    - rewrite length_drop. lia.
    - apply Forall_forall. intros n Hn. unfold same_pos. apply Z.eqb_eq.
      apply Heq; [eapply list_elem_of_lookup_2; eauto|].
      now apply (subseteq_drop 1 s). }
  unfold bind. rewrite scan_iteration_run by lia. cbv zeta. rewrite Hk.
  rewrite drop_ge, take_ge by lia. simpl. rewrite app_nil_r.
  destruct fuel as [|fuel']; cbn [scan_loop]; unfold bind, nodes_length;
    now replace (length s - 1 + 1 <? length s - 1)%nat with false
      by (symmetry; apply Nat.ltb_ge; lia).
Qed.

(** ** A throw leaves the array partly updated *)




(** ** What [pfs] keeps of its input *)

(** X7: a staged position that a node carries on input is overwritten: the
    run of [pfs] and its result do not depend on it. *)
Theorem pfs_ignores_stale_staged padding (u : Node -> option Point) s :
  pfs padding ((fun n => set_up n (u n)) <$> s) = pfs padding s.
Proof.
  rewrite !pfs_run. f_equal. unfold pfs_nodes.
  rewrite <- list_fmap_compose. reflexivity.
Qed.

Lemma frame_fields ax l l' :
  Forall2 (frame ax) l l' ->
  (fun n => (index n, width n, height n)) <$> l' =
  (fun n => (index n, width n, height n)) <$> l.
Proof.
  induction 1 as [|a a' l l' [d ->] _ IH]; [reflexivity|].
  cbn [fmap list_fmap]. f_equal; [|exact IH].
  unfold moved. now destruct (up a).
Qed.

(** X8: [pfs] neither drops nor adds nor duplicates a node and changes no
    extent: the identities with their extents are those of the input, up
    to the order of the array, and no node of the result has a staged
    position. *)
Theorem pfs_keeps_nodes padding s :
  (fun n => (index n, width n, height n)) <$> snd (pfs padding s) ≡ₚ
  (fun n => (index n, width n, height n)) <$> s /\
  length (snd (pfs padding s)) = length s /\
  Forall (fun n => up n = None) (snd (pfs padding s)).
Proof.
  rewrite pfs_run. simpl.
  set (key := fun n => (index n, width n, height n)).
  assert (Hperm : key <$> pfs_nodes padding s ≡ₚ key <$> s).
  { unfold pfs_nodes, after_y.
    rewrite <- list_fmap_compose.
    rewrite (list_fmap_ext (key ∘ committed) key).
    2:{ intros j n _. unfold committed. simpl. now destruct (up n). }
    unfold key. rewrite (frame_fields AxisY _ _
      (scan_list_frame AxisY padding _ (sorted_after_x_staged padding s))).
    rewrite sort_list_perm. unfold after_x.
    rewrite (frame_fields AxisX _ _
      (scan_list_frame AxisX padding _ (sorted_stage_staged AxisX s))).
    rewrite sort_list_perm. rewrite <- list_fmap_compose. reflexivity. }
  split; [exact Hperm|]. split.
  - apply Permutation_length in Hperm. now rewrite !length_fmap in Hperm.
  - unfold pfs_nodes. apply Forall_fmap, Forall_forall. intros n Hn.
    pose proof (after_y_staged padding _ (all_staged_stage s)) as H.
    unfold all_staged in H. rewrite Forall_forall in H.
    destruct (H n Hn) as [v Hv]. simpl. unfold committed. now rewrite Hv.
Qed.

(** ** Displacements, whatever the geometry *)

Lemma at_same_index_group (f : Node -> Node) n0 r g rec a a' :
  at_same_index (n0 :: r) (n0 :: take g r ++ rec) a a' ->
  (a' = a /\ a ∈ n0 :: take g r) \/
  (a ∈ drop g r /\ at_same_index (f <$> drop g r) rec (f a) a').
Proof.
  intros H. rewrite <- (take_drop g r) in H at 1.
  change (at_same_index ((n0 :: take g r) ++ drop g r)
            ((n0 :: take g r) ++ rec) a a') in H.
  apply at_same_index_app_inv in H; [|reflexivity].
  destruct H as [H|H].
  - left. now apply at_same_index_diag.
  - right. pose proof (at_same_index_elem _ _ _ _ H) as [Ha _].
    split; [exact Ha|now apply at_same_index_fmap].
Qed.

Lemma ascending_tail ax n0 r g : ascending ax (n0 :: r) -> ascending ax (drop g r).
Proof.
  unfold ascending. intros H. apply StronglySorted_cons in H.
  destruct H as [_ Hr]. rewrite <- (take_drop g r) in Hr.
  now apply StronglySorted_app_1_r in Hr.
Qed.

Lemma ascending_moved ax d l : ascending ax l -> ascending ax (moved ax d <$> l).
Proof.
  unfold ascending. apply (StronglySorted_fmap (moved ax d)).
  intros a b. now rewrite !pos_moved.
Qed.

(** Nodes that share the coordinate of the scanned axis are pushed by
    the same amount. *)
Lemma scan_list_ties ax padding :
  forall fuel l, ascending ax l -> all_staged l ->
    forall a a' b b',
      at_same_index l (scan_list fuel ax padding l) a a' ->
      at_same_index l (scan_list fuel ax padding l) b b' ->
      pos ax a = pos ax b -> offset ax a a' = offset ax b b'.
Proof.
  induction fuel as [|fuel IH]; intros l Hasc Hst a a' b b' Ha Hb Hpos.
  { simpl in Ha, Hb. apply at_same_index_diag in Ha, Hb.
    destruct Ha as [-> _], Hb as [-> _]. now rewrite !offset_diag. }
  destruct l as [|n0 r].
  { destruct Ha as [j [H _]]. now rewrite lookup_nil in H. }
  cbn [scan_list] in Ha, Hb.
  destruct (group_split ax n0 r Hasc) as [Hgrp Hbey].
  set (g := prefix_len (same_pos ax n0) r) in *.
  set (d := max_abs (moves ax padding (n0 :: r) 0 g)) in *.
  assert (Hgrp' : forall c, c ∈ n0 :: take g r -> pos ax c = pos ax n0).
  { intros c Hc. apply elem_of_cons in Hc. destruct Hc as [->|Hc]; [easy|].
    rewrite Forall_forall in Hgrp. now apply Hgrp. }
  rewrite Forall_forall in Hbey.
  assert (Hrst : all_staged (drop g r)).
  { apply Forall_drop. apply Forall_cons in Hst. now destruct Hst. }
  pose proof Hrst as Hrst'. unfold all_staged in Hrst'.
  rewrite Forall_forall in Hrst'.
  apply (at_same_index_group (moved ax d)) in Ha, Hb.
  destruct Ha as [[-> Ha]|[Ha Har]]; destruct Hb as [[-> Hb]|[Hb Hbr]].
  - now rewrite !offset_diag.
  - pose proof (Hgrp' _ Ha). pose proof (Hbey _ Hb). lia.
  - pose proof (Hgrp' _ Hb). pose proof (Hbey _ Ha). lia.
  - pose proof (IH (moved ax d <$> drop g r)
      (ascending_moved _ _ _ (ascending_tail _ _ _ g Hasc))
      (all_staged_moved _ _ _ Hrst) _ _ _ _ Har Hbr) as H.
    rewrite !pos_moved, !offset_moved_l in H by auto.
    specialize (H Hpos). lia.
Qed.

(** A node of least coordinate on the scanned axis is in the first
    group, which no push reaches. *)
Lemma scan_list_least ax padding fuel l a a' :
  ascending ax l ->
  at_same_index l (scan_list fuel ax padding l) a a' ->
  (forall b, b ∈ l -> pos ax a <= pos ax b) -> a' = a.
Proof.
  intros Hasc Ha Hmin. destruct fuel as [|fuel].
  { simpl in Ha. now apply at_same_index_diag in Ha. }
  destruct l as [|n0 r].
  { destruct Ha as [j [H _]]. now rewrite lookup_nil in H. }
  cbn [scan_list] in Ha.
  destruct (group_split ax n0 r Hasc) as [_ Hbey].
  rewrite Forall_forall in Hbey.
  apply (at_same_index_group
           (moved ax (max_abs (moves ax padding (n0 :: r) 0
                                 (prefix_len (same_pos ax n0) r))))) in Ha.
  destruct Ha as [[-> _]|[Ha _]]; [reflexivity|].
  pose proof (Hbey _ Ha). pose proof (Hmin n0 ltac:(constructor)). lia.
Qed.

(** After the X pass a node has the current position of the node of the
    input it comes from, and its staged y is its y. *)
Lemma after_x_origin padding s n :
  n ∈ after_x padding (stage <$> s) ->
  exists b, b ∈ s /\ x n = x b /\ y n = y b /\ staged_coord AxisY n = y n.
Proof.
  intros Hn.
  destruct (at_same_index_from_r (sort_list (by_pos AxisX) (stage <$> s))
              (after_x padding (stage <$> s)) n) as [n0 H]; [|exact Hn|].
  { unfold after_x.
    eapply Forall2_length, scan_list_frame, sorted_stage_staged. }
  pose proof (at_same_index_elem _ _ _ _ H) as [Hn0 _].
  apply sort_list_elem, list_elem_of_fmap in Hn0.
  destruct Hn0 as [b [-> Hb]]. exists b. split; [exact Hb|].
  destruct H as [j [H1 H2]].
  assert (F : frame AxisX (stage b) n).
  { eapply Forall2_lookup_lr; [|exact H1|exact H2].
    apply scan_list_frame, sorted_stage_staged. }
  destruct F as [d ->]. repeat split.
Qed.

(** X9: [pfs] moves the nodes that share an x coordinate by the same amount
    along x, and the nodes that share a y coordinate by the same amount
    along y, whatever the geometry primitives compute: a tie group moves
    as one body. *)
Theorem pfs_moves_ties_together padding s a b a' b' :
  NoDup (index <$> s) ->
  a ∈ s -> b ∈ s ->
  a' ∈ snd (pfs padding s) -> b' ∈ snd (pfs padding s) ->
  index a' = index a -> index b' = index b ->
  (x a = x b -> x a' = x b') /\ (y a = y b -> y a' = y b').
Proof.
  intros Hnd Ha Hb Ha' Hb' Hia Hib. rewrite pfs_run in Ha', Hb'.
  simpl in Ha', Hb'.
  destruct (traced_of_index _ _ _ _ Hnd Ha Ha' Hia)
    as [a1 [a2 [_ [Ha1 [Ha2 ->]]]]].
  destruct (traced_of_index _ _ _ _ Hnd Hb Hb' Hib)
    as [b1 [b2 [_ [Hb1 [Hb2 ->]]]]].
  destruct (trace_shape _ _ _ _ _ Ha1 Ha2) as [Ea1 [_ ->]].
  destruct (trace_shape _ _ _ _ _ Hb1 Hb2) as [Eb1 [_ ->]].
  simpl. split; intros Heq.
  - rewrite (scan_list_ties AxisX padding _ _ (sort_list_ascending _ _)
               (sorted_stage_staged _ _) _ _ _ _ Ha1 Hb1 Heq). lia.
  - rewrite (scan_list_ties AxisY padding _ _ (sort_list_ascending _ _)
               (sorted_after_x_staged _ _) _ _ _ _ Ha2 Hb2); [lia|].
    rewrite Ea1, Eb1, !pos_moved. exact Heq.
Qed.

(** X10: [pfs] does not move a node of least x along x, nor a node of least y
    along y, whatever the geometry primitives compute: the first group
    of a scan is never pushed. *)
Theorem pfs_keeps_least padding s a a' :
  NoDup (index <$> s) ->
  a ∈ s -> a' ∈ snd (pfs padding s) -> index a' = index a ->
  ((forall b, b ∈ s -> x a <= x b) -> x a' = x a) /\
  ((forall b, b ∈ s -> y a <= y b) -> y a' = y a).
Proof.
  intros Hnd Ha Ha' Hia. rewrite pfs_run in Ha'. simpl in Ha'.
  destruct (traced_of_index _ _ _ _ Hnd Ha Ha' Hia)
    as [a1 [a2 [_ [Ha1 [Ha2 ->]]]]].
  destruct (trace_shape _ _ _ _ _ Ha1 Ha2) as [Ea1 [_ ->]].
  simpl. split; intros Hmin.
  - rewrite <- (scan_list_least AxisX padding _ _ _ _
                  (sort_list_ascending _ _) Ha1).
    + rewrite offset_diag. lia.
    + intros n Hn. apply sort_list_elem, list_elem_of_fmap in Hn.
      destruct Hn as [b [-> Hb]]. simpl. now apply Hmin.
  - rewrite <- (scan_list_least AxisY padding _ _ _ _
                  (sort_list_ascending _ _) Ha2).
    + rewrite offset_diag. lia.
    + intros n Hn. apply sort_list_elem in Hn.
      destruct (after_x_origin _ _ _ Hn) as [b [Hb [_ [Hy _]]]].
      rewrite Ea1, pos_moved. simpl. rewrite Hy. now apply Hmin.
Qed.

(** ** Displacements under direction-consistent deltas *)

Lemma scan_list_forward ax padding l a a' :
  direction_consistent padding -> ascending ax l -> all_staged l ->
  at_same_index l (scan_list (length l) ax padding l) a a' ->
  0 <= offset ax a a'.
Proof.
  intros Hdir Hasc Hst Ha.
  destruct (scan_list_apart ax padding (fun _ _ => 0) Hdir
              (fun _ _ _ _ => eq_refl) (Hdir ax) _ l (Nat.le_refl _)
              Hasc Hst) as [_ [H _]].
  now destruct (H _ _ Ha).
Qed.

(** X11: with deltas that point in the direction of the scan, [pfs] moves no
    node to the left or upwards: every node ends at an x and a y that
    are not below its own on input. *)
Theorem pfs_pushes_forward padding s a a' :
  direction_consistent padding ->
  NoDup (index <$> s) ->
  a ∈ s -> a' ∈ snd (pfs padding s) -> index a' = index a ->
  x a <= x a' /\ y a <= y a'.
Proof.
  intros Hdir Hnd Ha Ha' Hia. rewrite pfs_run in Ha'. simpl in Ha'.
  destruct (traced_of_index _ _ _ _ Hnd Ha Ha' Hia)
    as [a1 [a2 [_ [Ha1 [Ha2 ->]]]]].
  destruct (trace_shape _ _ _ _ _ Ha1 Ha2) as [_ [_ ->]].
  pose proof (scan_list_forward AxisX padding _ _ _ Hdir
                (sort_list_ascending _ _) (sorted_stage_staged _ _) Ha1).
  pose proof (scan_list_forward AxisY padding _ _ _ Hdir
                (sort_list_ascending _ _) (sorted_after_x_staged _ _) Ha2).
  simpl. lia.
Qed.

Lemma ascending_lookup ax l i j a b :
  ascending ax l -> (i < j)%nat -> l !! i = Some a -> l !! j = Some b ->
  pos ax a <= pos ax b.
Proof.
  unfold ascending. intros H. revert i j.
  induction H as [|n r Hr IH Hn]; intros i j Hij Hi Hj;
    [now rewrite lookup_nil in Hi|].
  destruct j as [|j]; [lia|]. simpl in Hj.
  destruct i as [|i]; simpl in Hi.
  - inversion Hi; subst. rewrite Forall_forall in Hn. apply Hn.
    eapply list_elem_of_lookup_2; eauto.
  - apply (IH i j); auto; lia.
Qed.

Lemma lookup_ascending ax l :
  (forall i j a b, (i < j)%nat -> l !! i = Some a -> l !! j = Some b ->
     pos ax a <= pos ax b) ->
  ascending ax l.
Proof.
  unfold ascending. induction l as [|n r IH]; intros H; constructor.
  - apply IH. intros i j a b Hij Hi Hj. apply (H (S i) (S j)); auto; lia.
  - apply Forall_forall. intros b Hb. apply list_elem_of_lookup in Hb.
    destruct Hb as [j Hj]. apply (H 0%nat (S j)); auto; lia.
Qed.

(** X12: with deltas that point in the direction of the scan, [pfs] leaves
    the array in ascending order of y, the new y of the nodes. *)
Theorem pfs_leaves_sorted_by_y padding s :
  direction_consistent padding ->
  ascending AxisY (snd (pfs padding s)).
Proof.
  intros Hdir. rewrite pfs_run. simpl. unfold pfs_nodes.
  set (s3 := sort_list (by_pos AxisY) (after_x padding (stage <$> s))).
  assert (Hs4 : after_y padding (stage <$> s) =
                scan_list (length s3) AxisY padding s3) by reflexivity.
  destruct (scan_list_apart AxisY padding (fun _ _ => 0) Hdir
              (fun _ _ _ _ => eq_refl) (Hdir AxisY) _ s3 (Nat.le_refl _)
              (sort_list_ascending _ _) (sorted_after_x_staged _ _))
    as [Hlen [Hfr Hpairs]].
  rewrite <- Hs4 in Hlen, Hfr, Hpairs.
  apply lookup_ascending. intros i j a' b' Hij Hi Hj.
  apply list_lookup_fmap_Some in Hi, Hj.
  destruct Hi as [a2 [-> Ha2]]. destruct Hj as [b2 [-> Hb2]].
  destruct (lookup_lt_is_Some_2 s3 i) as [a1 Ha1].
  { rewrite <- Hlen. eapply lookup_lt_Some; eauto. }
  destruct (lookup_lt_is_Some_2 s3 j) as [b1 Hb1].
  { rewrite <- Hlen. eapply lookup_lt_Some; eauto. }
  assert (Ia : at_same_index s3 (after_y padding (stage <$> s)) a1 a2)
    by (exists i; now split).
  assert (Ib : at_same_index s3 (after_y padding (stage <$> s)) b1 b2)
    by (exists j; now split).
  pose proof (ascending_lookup AxisY s3 i j a1 b1
                (sort_list_ascending _ _) Hij Ha1 Hb1) as Hle.
  destruct (Hpairs _ _ _ _ Ia Ib) as [P1 P2].
  destruct (Hfr _ _ Ia) as [Ea _]. destruct (Hfr _ _ Ib) as [Eb _].
  assert (Oa : exists n, n ∈ s /\ staged_coord AxisY a1 = pos AxisY a1
                         /\ is_Some (up a1)).
  { assert (Hin : a1 ∈ after_x padding (stage <$> s)).
    { apply (sort_list_elem (by_pos AxisY)).
      eapply list_elem_of_lookup_2; eauto. }
    destruct (after_x_origin _ _ _ Hin) as [n [Hn [_ [_ E]]]].
    exists n. repeat split; auto.
    pose proof (after_x_staged padding _ (all_staged_stage s)) as St.
    unfold all_staged in St. rewrite Forall_forall in St. auto. }
  assert (Ob : exists n, n ∈ s /\ staged_coord AxisY b1 = pos AxisY b1
                         /\ is_Some (up b1)).
  { assert (Hin : b1 ∈ after_x padding (stage <$> s)).
    { apply (sort_list_elem (by_pos AxisY)).
      eapply list_elem_of_lookup_2; eauto. }
    destruct (after_x_origin _ _ _ Hin) as [n [Hn [_ [_ E]]]].
    exists n. repeat split; auto.
    pose proof (after_x_staged padding _ (all_staged_stage s)) as St.
    unfold all_staged in St. rewrite Forall_forall in St. auto. }
  destruct Oa as [_ [_ [Sa [ua Hua]]]]. destruct Ob as [_ [_ [Sb [ub Hub]]]].
  assert (Ya : pos AxisY (committed a2) = staged_coord AxisY a2).
  { rewrite Ea. unfold committed, staged_coord, moved. rewrite Hua.
    reflexivity. }
  assert (Yb : pos AxisY (committed b2) = staged_coord AxisY b2).
  { rewrite Eb. unfold committed, staged_coord, moved. rewrite Hub.
    reflexivity. }
  rewrite Ya, Yb. unfold offset in P1, P2.
  destruct (decide (pos AxisY a1 = pos AxisY b1)) as [E|E].
  - specialize (P2 E). lia.
  - specialize (P1 ltac:(lia)). lia.
Qed.

(** ** When a scan throws *)

Lemma update_list_throw_inv (h : Node -> option Node) l msg :
  fst (update_list h l) = Throw msg ->
  exists t n, l !! t = Some n /\ h n = None.
Proof.
  induction l as [|m r IH]; simpl; [discriminate|].
  destruct (h m) as [m'|] eqn:Hm.
  - destruct (update_list h r) as [o r']. simpl. intros Ho.
    destruct (IH Ho) as [t [n [Ht Hn]]]. exists (S t), n. now split.
  - intros _. exists 0%nat, m. now split.
Qed.

Lemma frame_missing_inv ax l l' j n' :
  Forall2 (frame ax) l l' -> l' !! j = Some n' -> up n' = None ->
  l !! j = Some n'.
Proof.
  intros Hf Hj Hup.
  destruct (Forall2_lookup_r _ _ _ _ _ Hf Hj) as [n [Hn [d ->]]].
  rewrite Hn. f_equal. unfold moved in *.
  destruct (up n) eqn:E; [discriminate|reflexivity].
Qed.

Lemma group_end_ge callback s i : (i <= group_end callback s i)%nat.
Proof. unfold group_end. destruct (s !! i); lia. Qed.

Lemma scan_loop_throw_inv ax padding :
  forall fuel i s msg s',
    scan_loop fuel ax padding i s = (Throw msg, s') ->
    exists j n, (group_end (same_pos ax) s i < j)%nat /\
                s !! j = Some n /\ up n = None.
Proof.
  induction fuel as [|fuel IH]; intros i s msg s' H.
  - cbn [scan_loop] in H. unfold bind, nodes_length in H.
    destruct (i <? length s - 1)%nat; discriminate.
  - cbn [scan_loop] in H. unfold bind at 1 in H.
    unfold nodes_length at 1 in H.
    destruct (i <? length s - 1)%nat eqn:Hlt; [|discriminate].
    apply Nat.ltb_lt in Hlt. unfold bind in H.
    rewrite scan_iteration_run in H by lia. cbv zeta in H.
    pose proof (group_end_bounds (same_pos ax) s i ltac:(lia)) as Hk.
    set (k := group_end (same_pos ax) s i) in *.
    set (d := max_abs (moves ax padding s i k)) in *.
    destruct (update_list (shift ax d) (drop (k + 1) s)) as [o1 l1] eqn:Hu.
    destruct (update_list_shift _ _ _ _ _ Hu) as [Ho1 Hf1].
    destruct Ho1 as [-> | ->].
    + assert (Hf : Forall2 (frame ax) s (take (k + 1) s ++ l1)).
      { rewrite <- (take_drop (k + 1) s) at 1.
        apply Forall2_app; [apply Forall2_frame_refl|exact Hf1]. }
      pose proof (Forall2_length _ _ _ Hf) as Hlen.
      destruct (IH _ _ _ _ H) as [j [n [Hj [Hn Hup]]]].
      pose proof (lookup_lt_Some _ _ _ Hn) as Hjl.
      pose proof (group_end_ge (same_pos ax) (take (k + 1) s ++ l1) (k + 1))
        as Hb.
      exists j, n. split; [lia|]. split; [|exact Hup].
      eapply frame_missing_inv; eauto.
    + assert (Ht : fst (update_list (shift ax d) (drop (k + 1) s))
                   = Throw undefined_up) by now rewrite Hu.
      destruct (update_list_throw_inv _ _ _ Ht) as [t [n [Hn Hs]]].
      rewrite lookup_drop in Hn. exists (k + 1 + t)%nat, n.
      split; [lia|]. split; [exact Hn|].
      unfold shift in Hs. now destruct (up n).
Qed.

(** X4: a scan throws exactly when a node beyond the first group has no
    staged position, and then with the message of the source; in every
    other case it returns normally.  A missing staged position within
    the first group is not noticed by the scan. *)
Theorem scan_throws_iff ax padding s :
  (fst (scan ax padding s) = Throw undefined_up <->
   exists j n, (group_end (same_pos ax) s 0 < j)%nat /\
               s !! j = Some n /\ up n = None) /\
  (fst (scan ax padding s) = Ok tt \/
   fst (scan ax padding s) = Throw undefined_up).
Proof.
  split.
  - split.
    + destruct (scan ax padding s) as [o s'] eqn:H. simpl. intros ->.
      unfold scan in H.
      rewrite (bind_run _ _ s (length s) s) in H by reflexivity.
      eapply scan_loop_throw_inv; eauto.
    + intros [j [n [Hj [Hn Hup]]]].
      pose proof (lookup_lt_Some _ _ _ Hn) as Hjl.
      unfold scan. rewrite (bind_run _ _ s (length s) s) by reflexivity.
      destruct (length s) as [|fuel] eqn:E; [lia|].
      cbn [scan_loop]. unfold bind at 1. unfold nodes_length at 1.
      rewrite E.
      replace (0 <? S fuel - 1)%nat with true
        by (symmetry; apply Nat.ltb_lt; lia).
      unfold bind. rewrite scan_iteration_run by lia. cbv zeta.
      set (k := group_end (same_pos ax) s 0) in *.
      assert (Hin : n ∈ drop (k + 1) s).
      { apply list_elem_of_lookup. exists (j - (k + 1))%nat.
        rewrite lookup_drop.
        now replace (k + 1 + (j - (k + 1)))%nat with j by lia. }
      pose proof (update_list_throws
        (shift ax (max_abs (moves ax padding s 0 k))) _ n Hin) as Ht.
      destruct (update_list _ (drop (k + 1) s)) as [o l']. simpl in Ht.
      rewrite Ht; [reflexivity|]. unfold shift. now rewrite Hup.
  - destruct (scan ax padding s) as [o s'] eqn:H. simpl.
    apply scan_any in H. tauto.
Qed.

End Pfs.

(** ** The geometry of boxes meets the contract *)

Lemma box_blind : staged_blind Box.overlap Box.optimalVector Box.vector.
Proof. intros a b u v padding. repeat split. Qed.

(** The delta of a pair of boxes, by cases. *)
Lemma box_delta_cases a b padding :
  let d := delta Box.overlap Box.optimalVector Box.vector Box.diff a b padding in
  let dx := x b - x a in
  let dy := y b - y a in
  let rx := Box.reach_x a b padding in
  let ry := Box.reach_y a b padding in
  (px d = 0 /\ py d = 0) \/
  (Z.abs dx < rx /\ Z.abs dy < ry /\
   (px d = Z.sgn dx * rx - dx /\ py d = 0 \/
    px d = 0 /\ py d = Z.sgn dy * ry - dy)).
Proof.
  cbv zeta. unfold delta, Box.overlap.
  destruct (Z.abs (x b - x a) <? Box.reach_x a b padding) eqn:Ex;
    [|left; split; reflexivity].
  destruct (Z.abs (y b - y a) <? Box.reach_y a b padding) eqn:Ey;
    [|left; split; reflexivity].
  apply Z.ltb_lt in Ex, Ey. simpl. right. split; [exact Ex|]. split; [exact Ey|].
  unfold Box.optimalVector, Box.vector, Box.diff.
  destruct (Box.along_x a b padding); simpl; [left|right]; split; lia.
Qed.

Lemma box_direction padding :
  direction_consistent Box.overlap Box.optimalVector Box.vector Box.diff
    padding.
Proof.
  intros ax a b Hlt.
  pose proof (box_delta_cases a b padding) as H. cbv zeta in H.
  destruct ax; simpl in *.
  - destruct H as [[-> _]|[Hx [_ [[-> _]|[-> _]]]]]; lia.
  - destruct H as [[_ ->]|[_ [Hy [[_ ->]|[_ ->]]]]]; lia.
Qed.

(** ** The algorithm on boxes *)

Ltac in_list := vm_compute; repeat constructor.


(** The two slabs of [Box.slab_pair] lie at different positions and
    overlap.  They reach less far into each other along y, so their delta
    has no x, and they share their y, so they are one group in the scan
    on y: [pfs] leaves them where they are, still overlapping. *)
Lemma slab_pair_still_overlaps :
  pfs Box.overlap Box.optimalVector Box.vector Box.diff 0 Box.slab_pair
  = (Ok tt, Box.slab_pair) /\
  Box.overlap (Box.slab 0 0 0) (Box.slab 1 4 0) 0 = true.
Proof. split; reflexivity. Qed.


(** On the three slabs of [Box.slabs] the first run of [pfs] pushes the
    second slab to x = 7, where it still overlaps the first; the deltas
    of the second run are computed from these positions, and the second
    run pushes the second slab to x = 10 and the third to x = 13. *)
Lemma second_run_moves_nodes :
  snd (pfs Box.overlap Box.optimalVector Box.vector Box.diff 0 Box.slabs)
  = [Box.slab 0 0 0; Box.slab 1 7 0; Box.slab 2 10 0] /\
  snd (pfs Box.overlap Box.optimalVector Box.vector Box.diff 0
         (snd (pfs Box.overlap Box.optimalVector Box.vector Box.diff 0
                 Box.slabs)))
  = [Box.slab 0 0 0; Box.slab 1 10 0; Box.slab 2 13 0] /\
  ~ (forall n,
       n ∈ snd (pfs Box.overlap Box.optimalVector Box.vector Box.diff 0
                  (snd (pfs Box.overlap Box.optimalVector Box.vector
                          Box.diff 0 Box.slabs))) ->
       n ∈ snd (pfs Box.overlap Box.optimalVector Box.vector Box.diff 0
                  Box.slabs)).
Proof.
  split; [reflexivity|]. split; [reflexivity|].
  intros H. specialize (H (Box.slab 1 10 0) ltac:(in_list)).
  apply list_elem_of_In in H. vm_compute in H.
  destruct H as [H|[H|[H|[]]]]; discriminate H.
Qed.

Lemma pfs_second_run_without_overlap_witness :
  pfs Box.overlap Box.optimalVector Box.vector Box.diff 0
    (snd (pfs Box.overlap Box.optimalVector Box.vector Box.diff 0 Box.quad)) =
  (Ok tt, sort_list (by_pos AxisY)
            (sort_list (by_pos AxisX)
               (snd (pfs Box.overlap Box.optimalVector Box.vector Box.diff 0
                       Box.quad)))).
Proof.
  apply (pfs_second_run_without_overlap Box.overlap Box.optimalVector
           Box.vector Box.diff 0 Box.quad).
  - apply box_blind.
  - intros a b Ha Hb Hne.
    apply list_elem_of_In in Ha, Hb. vm_compute in Ha, Hb.
    destruct Ha as [<-|[<-|[<-|[<-|[]]]]];
      destruct Hb as [<-|[<-|[<-|[<-|[]]]]];
      try reflexivity; now destruct Hne.
Defined.

Lemma pfs_preserves_order_witness :
  (x (Box.box 0 0 0) < x (Box.box 1 4 0) ->
   x (Box.box 0 0 0) <= x (Box.box 1 10 0)) /\
  (y (Box.box 0 0 0) < y (Box.box 1 4 0) ->
   y (Box.box 0 0 0) <= y (Box.box 1 10 0)).
Proof.
  apply (pfs_preserves_order Box.overlap Box.optimalVector Box.vector
           Box.diff 0 Box.pair (Box.box 0 0 0) (Box.box 1 4 0)
           (Box.box 0 0 0) (Box.box 1 10 0)).
  - apply box_direction.
  - compute_done.
  - in_list.
  - in_list.
  - in_list.
  - in_list.
  - reflexivity.
  - reflexivity.
Defined.


(** On [Box.row] the moves of the first group are 6, 0, 0 and 3: the
    value of the loops is 6, neither their sum nor their average. *)
Example max_delta_row :
  moves Box.overlap Box.optimalVector Box.vector Box.diff AxisX 0 Box.row 0 1
  = [6; 0; 0; 3] /\
  max_delta Box.overlap Box.optimalVector Box.vector Box.diff AxisX 0 0 1
    Box.row = (Ok 6, Box.row).
Proof. split; reflexivity. Qed.

(** Of two moves of the same absolute value the first is kept. *)
Example max_abs_first : max_abs [3; -5; 5; 4] = -5.
Proof. reflexivity. Qed.

Lemma max_delta_first_greatest_witness :
  exists maxDelta,
    max_delta Box.overlap Box.optimalVector Box.vector Box.diff AxisX 0 0 1
      Box.row = (Ok maxDelta, Box.row) /\
    (forall move,
       move ∈ moves Box.overlap Box.optimalVector Box.vector Box.diff AxisX 0
                Box.row 0 1 <->
       exists m j a b, (0 <= m <= 1)%nat /\ (1 < j)%nat /\
         Box.row !! m = Some a /\ Box.row !! j = Some b /\
         move = coord AxisX (delta Box.overlap Box.optimalVector Box.vector
                               Box.diff a b 0)) /\
    (moves Box.overlap Box.optimalVector Box.vector Box.diff AxisX 0 Box.row
       0 1 = [] -> maxDelta = 0) /\
    (moves Box.overlap Box.optimalVector Box.vector Box.diff AxisX 0 Box.row
       0 1 <> [] ->
     exists before after,
       moves Box.overlap Box.optimalVector Box.vector Box.diff AxisX 0
         Box.row 0 1 = before ++ maxDelta :: after /\
       Forall (fun move => Z.abs move < Z.abs maxDelta) before /\
       Forall (fun move => Z.abs move <= Z.abs maxDelta) after).
Proof.
  apply (max_delta_first_greatest Box.overlap Box.optimalVector Box.vector
           Box.diff AxisX 0 Box.row 0 1).
Defined.

(** On [Box.quad] the X pass computes [maxDelta] = 9 for the group of
    three; it leaves the three group nodes where they are and moves the
    fourth node, so it is not the case that the group is shifted by
    [maxDelta] and the fourth node stays. *)
Lemma tie_group_not_shifted :
  exists maxDelta s',
    max_delta Box.overlap Box.optimalVector Box.vector Box.diff AxisX 0 0 2
      (stage <$> Box.quad) = (Ok maxDelta, stage <$> Box.quad) /\
    maxDelta = 9 /\
    x_pass Box.overlap Box.optimalVector Box.vector Box.diff 0 Box.quad
    = (Ok tt, s') /\
    ~ ((forall j n n', (j < 3)%nat -> Box.quad !! j = Some n ->
          s' !! j = Some n' -> staged_coord AxisX n' = x n + maxDelta) /\
       (forall n n', Box.quad !! 3%nat = Some n -> s' !! 3%nat = Some n' ->
          staged_coord AxisX n' = x n)).
Proof.
  exists 9.
  exists [Box.staged_box 0 0 0; Box.staged_box 1 0 2; Box.staged_box 2 0 4;
          mkNode 3 1 0 10 10 (Some (mkPoint 10 0))].
  split; [reflexivity|]. split; [reflexivity|]. split; [reflexivity|].
  intros [H _].
  specialize (H 0%nat (Box.box 0 0 0) (Box.staged_box 0 0 0)
                ltac:(lia) eq_refl eq_refl).
  discriminate H.
Qed.

Lemma tie_group_x_pass_witness :
  let maxDelta :=
    max_abs
      [px (delta Box.overlap Box.optimalVector Box.vector Box.diff
             (stage (Box.box 0 0 0)) (stage (Box.box 3 1 0)) 0);
       px (delta Box.overlap Box.optimalVector Box.vector Box.diff
             (stage (Box.box 1 0 2)) (stage (Box.box 3 1 0)) 0);
       px (delta Box.overlap Box.optimalVector Box.vector Box.diff
             (stage (Box.box 2 0 4)) (stage (Box.box 3 1 0)) 0)] in
  x_pass Box.overlap Box.optimalVector Box.vector Box.diff 0 Box.quad =
  (Ok tt, [stage (Box.box 0 0 0); stage (Box.box 1 0 2);
           stage (Box.box 2 0 4);
           set_up (Box.box 3 1 0)
             (Some (mkPoint (x (Box.box 3 1 0) + maxDelta)
                            (y (Box.box 3 1 0))))]) /\
  max_delta Box.overlap Box.optimalVector Box.vector Box.diff AxisX 0 0 2
    [stage (Box.box 0 0 0); stage (Box.box 1 0 2); stage (Box.box 2 0 4);
     stage (Box.box 3 1 0)] =
  (Ok maxDelta,
   [stage (Box.box 0 0 0); stage (Box.box 1 0 2); stage (Box.box 2 0 4);
    stage (Box.box 3 1 0)]).
Proof.
  apply (tie_group_x_pass Box.overlap Box.optimalVector Box.vector Box.diff
           0 (Box.box 0 0 0) (Box.box 1 0 2) (Box.box 2 0 4)
           (Box.box 3 1 0)).
  - reflexivity.
  - reflexivity.
  - reflexivity.
Defined.

Lemma pfs_identity_without_overlap_witness :
  pfs Box.overlap Box.optimalVector Box.vector Box.diff 0 Box.spread =
  (Ok tt, (fun n => set_up n None) <$>
            sort_list (by_pos AxisY) (sort_list (by_pos AxisX) Box.spread)).
Proof.
  apply (proj1 (pfs_identity_without_overlap Box.overlap Box.optimalVector
                  Box.vector Box.diff)).
  - apply box_blind.
  - intros a b Ha Hb Hne.
    apply list_elem_of_In in Ha, Hb. simpl in Ha, Hb.
    destruct Ha as [<-|[<-|[<-|[]]]]; destruct Hb as [<-|[<-|[<-|[]]]];
      try reflexivity; now destruct Hne.
Defined.

Lemma missing_staged_position_throws_witness :
  fst (pfs_staged Box.overlap Box.optimalVector Box.vector Box.diff 0
         Box.unstaged) = Throw undefined_up.
Proof.
  apply (proj2 (proj2 (missing_staged_position_throws Box.overlap
                         Box.optimalVector Box.vector Box.diff))
           0 Box.unstaged (Box.box 1 4 0)).
  - in_list.
  - reflexivity.
Defined.

Lemma scan_frame_witness :
  (forall n',
     snd (scanX Box.overlap Box.optimalVector Box.vector Box.diff 0 Box.row)
       !! 2%nat = Some n' ->
     index n' = index (Box.staged_box 2 4 0) /\
     x n' = x (Box.staged_box 2 4 0) /\
     y n' = y (Box.staged_box 2 4 0) /\
     width n' = width (Box.staged_box 2 4 0) /\
     height n' = height (Box.staged_box 2 4 0) /\
     py <$> up n' = py <$> up (Box.staged_box 2 4 0)) /\
  (forall n',
     snd (scanY Box.overlap Box.optimalVector Box.vector Box.diff 0 Box.row)
       !! 2%nat = Some n' ->
     index n' = index (Box.staged_box 2 4 0) /\
     x n' = x (Box.staged_box 2 4 0) /\
     y n' = y (Box.staged_box 2 4 0) /\
     width n' = width (Box.staged_box 2 4 0) /\
     height n' = height (Box.staged_box 2 4 0) /\
     px <$> up n' = px <$> up (Box.staged_box 2 4 0)) /\
  length (snd (scanX Box.overlap Box.optimalVector Box.vector Box.diff 0
                 Box.row)) = length Box.row /\
  length (snd (scanY Box.overlap Box.optimalVector Box.vector Box.diff 0
                 Box.row)) = length Box.row.
Proof.
  apply (scan_frame Box.overlap Box.optimalVector Box.vector Box.diff
           0 Box.row 2 (Box.staged_box 2 4 0)).
  reflexivity.
Defined.

Lemma pfs_terminates_witness :
  exists k, same 1 (same_pos AxisX) Box.row = (Ok k, Box.row) /\
            (1 <= k <= length Box.row - 1)%nat.
Proof.
  apply (proj1 (pfs_terminates Box.overlap Box.optimalVector Box.vector
                  Box.diff)).
  vm_compute. lia.
Defined.

(** ** Further runs on boxes *)

Lemma same_maximal_run_witness :
  exists k,
    same 0 (same_pos AxisX) Box.row = (Ok k, Box.row) /\
    (0 <= k < length Box.row)%nat /\
    (forall j n, (0 < j <= k)%nat -> Box.row !! j = Some n ->
       same_pos AxisX (Box.staged_box 0 0 0) n = true) /\
    (forall n, Box.row !! (k + 1)%nat = Some n ->
       same_pos AxisX (Box.staged_box 0 0 0) n = false).
Proof.
  apply (same_maximal_run (same_pos AxisX) Box.row 0 (Box.staged_box 0 0 0)).
  reflexivity.
Defined.

Lemma same_never_throws_witness :
  exists k,
    same 7 (same_pos AxisX) Box.row = (Ok k, Box.row) /\ (7 <= k)%nat /\
    ((length Box.row - 1 <= 7)%nat -> k = 7%nat).
Proof. apply (same_never_throws (same_pos AxisX) Box.row 7). Defined.

Lemma scan_single_group_witness :
  scan Box.overlap Box.optimalVector Box.vector Box.diff AxisX 0 Box.twins
  = (Ok tt, Box.twins).
Proof.
  apply (scan_single_group Box.overlap Box.optimalVector Box.vector Box.diff
           AxisX 0 Box.twins).
  intros a b Ha Hb. apply list_elem_of_In in Ha, Hb. simpl in Ha, Hb.
  destruct Ha as [<-|[<-|[]]]; destruct Hb as [<-|[<-|[]]]; reflexivity.
Defined.



Lemma pfs_moves_ties_together_witness :
  (x (Box.box 1 0 2) = x (Box.box 2 0 4) ->
   x (Box.box 1 0 10) = x (Box.box 2 0 20)) /\
  (y (Box.box 1 0 2) = y (Box.box 2 0 4) ->
   y (Box.box 1 0 10) = y (Box.box 2 0 20)).
Proof.
  apply (pfs_moves_ties_together Box.overlap Box.optimalVector Box.vector
           Box.diff 0 Box.quad (Box.box 1 0 2) (Box.box 2 0 4)
           (Box.box 1 0 10) (Box.box 2 0 20)).
  - compute_done.
  - in_list.
  - in_list.
  - in_list.
  - in_list.
  - reflexivity.
  - reflexivity.
Defined.

Lemma pfs_keeps_least_witness :
  ((forall b, b ∈ Box.quad -> x (Box.box 0 0 0) <= x b) ->
   x (Box.box 0 0 0) = x (Box.box 0 0 0)) /\
  ((forall b, b ∈ Box.quad -> y (Box.box 0 0 0) <= y b) ->
   y (Box.box 0 0 0) = y (Box.box 0 0 0)).
Proof.
  apply (pfs_keeps_least Box.overlap Box.optimalVector Box.vector Box.diff
           0 Box.quad (Box.box 0 0 0) (Box.box 0 0 0)).
  - compute_done.
  - in_list.
  - in_list.
  - reflexivity.
Defined.

Lemma pfs_pushes_forward_witness :
  x (Box.box 1 4 0) <= x (Box.box 1 10 0) /\
  y (Box.box 1 4 0) <= y (Box.box 1 10 0).
Proof.
  apply (pfs_pushes_forward Box.overlap Box.optimalVector Box.vector
           Box.diff 0 Box.pair (Box.box 1 4 0) (Box.box 1 10 0)).
  - apply box_direction.
  - compute_done.
  - in_list.
  - in_list.
  - reflexivity.
Defined.

Lemma pfs_leaves_sorted_by_y_witness :
  ascending AxisY
    (snd (pfs Box.overlap Box.optimalVector Box.vector Box.diff 0 Box.quad)).
Proof.
  apply (pfs_leaves_sorted_by_y Box.overlap Box.optimalVector Box.vector
           Box.diff 0 Box.quad).
  apply box_direction.
Defined.

Lemma scan_throws_iff_witness :
  fst (scan Box.overlap Box.optimalVector Box.vector Box.diff AxisX 0
         Box.unstaged) = Throw undefined_up.
Proof.
  apply (proj1 (scan_throws_iff Box.overlap Box.optimalVector Box.vector
                  Box.diff AxisX 0 Box.unstaged)).
  exists 1%nat, (Box.box 1 4 0). split; [vm_compute; lia|].
  split; reflexivity.
Defined.
